(** * BLE gyroscope-controlled motor system: frame pipeline

    A shallow embedding of the framing, validation, decoding and
    command-mapping code of [src/BLE_UART.c], [src/GyroParser.c] and
    [main.c], together with the properties of that pipeline.

    Conventions.
    - A [uint8_t] is a [Byte.byte]; [u8] gives its value in [0, 255].
    - A C buffer is a [list byte]; reading or writing past its end is
      undefined behaviour and is reported as [None] or [Overflow].
    - A [float] is an IEEE-754 binary32 value, written as a [spec_float]
      of the Standard Library; the target (MSP432, Cortex-M4F) is
      little-endian. *)

From Stdlib Require Import ZArith Lia QArith Qabs Lqa SpecFloat.
From Stdlib Require Init.Byte Strings.Byte.
From stdpp Require Import base option list.

Local Open Scope Z_scope.

Abbreviation byte := Init.Byte.byte.

(** ** Bytes *)

Definition u8 (b : byte) : Z := Z.of_N (Byte.to_N b).

(** Conversion of an [int] to [uint8_t]: reduction modulo 256. *)
Definition to_u8 (z : Z) : Z := z mod 256.

Definition byte_of_Z (z : Z) : byte :=
  default Byte.x00 (Byte.of_N (Z.to_N (to_u8 z))).

(** ** GyroParser.c *)

Module GyroParser.

(** The body of the [for (int i = 0; i < 14; i++) sum += buffer[i];] loop:
    [n] iterations are left, [i] is the index and [sum] the [uint8_t]
    accumulator. *)
Fixpoint sum_loop (buffer : list byte) (i n : nat) (sum : Z) : option Z :=
  match n with
  | O => Some sum
  | S n' =>
      c ← buffer !! i;
      sum_loop buffer (S i) n' (to_u8 (sum + u8 c))
  end.

Definition ValidateCRC (buffer : list byte) : option bool :=
  sum ← sum_loop buffer 0 14 0;
  let sum := to_u8 (Z.lnot sum) in
  c ← buffer !! 14%nat;
  Some (sum =? u8 c).

Definition ValidateBLEPacket (buffer : list byte) : option bool :=
  b0 ← buffer !! 0%nat;
  if negb (u8 b0 =? 0x21) then Some false
  else
    b1 ← buffer !! 1%nat;
    if negb (u8 b1 =? 0x47) then Some false
    else ValidateCRC buffer.

(** *** binary32 values *)

Definition float32 := spec_float.

(** The 32-bit word held by four consecutive bytes on a little-endian
    machine: the first byte is the least significant one. *)
Definition word_of_bytes (b0 b1 b2 b3 : byte) : Z :=
  Z.lor (u8 b0)
    (Z.lor (Z.shiftl (u8 b1) 8)
       (Z.lor (Z.shiftl (u8 b2) 16) (Z.shiftl (u8 b3) 24))).

(** The binary32 value of a 32-bit pattern: sign bit 31, biased exponent
    bits 30..23, fraction bits 22..0. *)
Definition b32_of_bits (w : Z) : float32 :=
  let s := Z.testbit w 31 in
  let e := Z.land (Z.shiftr w 23) 0xFF in
  let m := Z.land w 0x7FFFFF in
  if e =? 255 then
    if m =? 0 then S754_infinity s else S754_nan
  else if e =? 0 then
    match m with
    | Zpos p => S754_finite s p (-149)
    | _ => S754_zero s
    end
  else S754_finite s (Z.to_pos (m + 0x800000)) (e - 150).

(** [memcpy(&value, &buffer[offset], 4); return value;] *)
Definition ExtractFloat (buffer : list byte) (offset : nat) : option float32 :=
  b0 ← buffer !! offset;
  b1 ← buffer !! (offset + 1)%nat;
  b2 ← buffer !! (offset + 2)%nat;
  b3 ← buffer !! (offset + 3)%nat;
  Some (b32_of_bits (word_of_bytes b0 b1 b2 b3)).

(** What [ParseBLEPacket] prints; it has no other effect. *)
Inductive parse_log :=
| Invalid_BLE_Packet
| Parsed_Floats (x y z : float32).

Definition ParseBLEPacket (buffer : list byte) : option parse_log :=
  ok ← ValidateBLEPacket buffer;
  if negb ok then Some Invalid_BLE_Packet
  else
    x ← ExtractFloat buffer 2;
    y ← ExtractFloat buffer 6;
    z ← ExtractFloat buffer 10;
    Some (Parsed_Floats x y z).

End GyroParser.

(** ** BLE_UART.c *)

Module BLE_UART.

(** How a call of [BLE_UART_InString] on a finite prefix of the byte
    stream ends. *)
Inductive rx_result :=
| Returned (length : Z) (buffer rest : list byte)
    (** returned [length]; [buffer] is the caller's array afterwards and
        [rest] the bytes not yet read *)
| Blocked
    (** still inside [BLE_UART_InChar]: the prefix is used up *)
| Overflow.
    (** a store through [buffer_pointer] outside the caller's array *)

(** [*buffer_pointer = character] where [buffer_pointer] is [ptr] bytes
    after the start of the array. *)
Definition store (buffer : list byte) (ptr : Z) (character : byte)
  : option (list byte) :=
  if (0 <=? ptr) && (ptr <? Z.of_nat (List.length buffer))
  then Some (<[Z.to_nat ptr := character]> buffer)
  else None.

(** The [while (length < buffer_size)] loop. One byte of [input] is read
    by each iteration. *)
Fixpoint InString_loop (buffer_size : Z) (input buffer : list byte)
    (ptr length state : Z) {struct input} : rx_result :=
  if length <? buffer_size then
    match input with
    | [] => Blocked
    | character :: input =>
        if (state =? 0) && (u8 character =? 0x21) then
          match store buffer ptr character with
          | Some buffer =>
              InString_loop buffer_size input buffer (ptr + 1) 1 1
          | None => Overflow
          end
        else if (state =? 1) && (u8 character =? 0x47) then
          match store buffer ptr character with
          | Some buffer =>
              InString_loop buffer_size input buffer (ptr + 1) (length + 1) 2
          | None => Overflow
          end
        else if state =? 2 then
          match store buffer ptr character with
          | Some buffer =>
              let ptr := ptr + 1 in
              let length := length + 1 in
              if length =? 15 then Returned length buffer input
              else InString_loop buffer_size input buffer ptr length state
          | None => Overflow
          end
        else
          let state := 0 in
          let length := 0 in
          let ptr := ptr - length in
          InString_loop buffer_size input buffer ptr length state
    end
  else Returned length buffer input.

Definition BLE_UART_InString (buffer : list byte) (buffer_size : Z)
    (input : list byte) : rx_result :=
  InString_loop buffer_size input buffer 0 0 0.

Definition checkCRC (buffer : list byte) : option bool :=
  sum ← GyroParser.sum_loop buffer 0 14 0;
  let sum := to_u8 (Z.lnot sum) in
  c ← buffer !! 14%nat;
  Some (sum =? u8 c).

(** What [BLE_UART_HandleRxData] does with a received block. *)
Inductive rx_handling :=
| Error_Invalid_data
| Error_CRC_failed
| Parsed (log : GyroParser.parse_log).

Definition BLE_UART_HandleRxData (buffer : list byte) (len : Z)
  : option rx_handling :=
  if negb (len =? 15) then Some Error_Invalid_data
  else
    b0 ← buffer !! 0%nat;
    if negb (u8 b0 =? 0x21) then Some Error_Invalid_data
    else
      b1 ← buffer !! 1%nat;
      if negb (u8 b1 =? 0x47) then Some Error_Invalid_data
      else
        ok ← checkCRC buffer;
        if negb ok then Some Error_CRC_failed
        else Parsed <$> GyroParser.ParseBLEPacket buffer.

(** [BLE_UART_OutChar]: once the transmitter is ready the byte is written
    to TXBUF; [tx] is what has been sent so far. *)
Definition BLE_UART_OutChar (tx : list byte) (data : byte) : list byte :=
  tx ++ [data].

(** The loop of [BLE_UART_OutString]: as long as the byte [pt] points to
    is not zero it is sent and [pt] moves on. [pt] is the array from the
    pointer on; running off its end is a read outside the array. *)
Fixpoint BLE_UART_OutString (pt tx : list byte) : option (list byte) :=
  match pt with
  | [] => None
  | c :: pt =>
      if negb (u8 c =? 0) then BLE_UART_OutString pt (BLE_UART_OutChar tx c)
      else Some tx
  end.

End BLE_UART.

(** ** Floating-point comparison

    [float] operands are promoted to [double] before they are compared
    with the [double] literals [0.2] and [-0.2]; the promotion is exact,
    and an IEEE-754 comparison is a comparison of the values, false as
    soon as an operand is a NaN. *)

Module Fp.

(** The value [m * 2^e] as a rational. *)
Definition dyadic (m e : Z) : Q :=
  match e with
  | Zneg p => Qmake m (2 ^ p)%positive
  | _ => inject_Z (m * 2 ^ e)
  end.

(** The value of a float that is neither an infinity nor a NaN. *)
Definition value (f : spec_float) : Q :=
  match f with
  | S754_finite s m e => dyadic (if s then Zneg m else Zpos m) e
  | _ => 0%Q
  end.

Definition is_nan (f : spec_float) : bool :=
  match f with S754_nan => true | _ => false end.

Definition compare (a b : spec_float) : option comparison :=
  match a, b with
  | S754_nan, _ | _, S754_nan => None
  | S754_infinity s1, S754_infinity s2 =>
      Some (match s1, s2 with
            | true, false => Lt
            | false, true => Gt
            | _, _ => Eq
            end)
  | S754_infinity s, _ => Some (if s then Lt else Gt)
  | _, S754_infinity s => Some (if s then Gt else Lt)
  | _, _ => Some (Qcompare (value a) (value b))
  end.

(** [a < b], [a > b] and [a <= b] of C. *)
Definition lt (a b : spec_float) : bool :=
  match compare a b with Some Lt => true | _ => false end.

Definition gt (a b : spec_float) : bool :=
  match compare a b with Some Gt => true | _ => false end.

Definition le (a b : spec_float) : bool :=
  match compare a b with Some (Lt | Eq) => true | _ => false end.

(** [fabs] of the C library: the sign is cleared. *)
Definition fabs (a : spec_float) : spec_float := SFabs a.

(** The [double] literal [0.2]: the binary64 number nearest to 1/5,
    [0x3FC999999999999A]. *)
Definition d0_2 : spec_float := S754_finite false 7205759403792794 (-55).

(** The literal [-0.2]. *)
Definition dm0_2 : spec_float := SFopp d0_2.

End Fp.

(** ** main.c *)

Module Main.

Import GyroParser BLE_UART.

Definition BLE_UART_BUFFER_SIZE : Z := 128.

(** The calls made to the motor driver. *)
Inductive Command :=
| Motor_Forward (left_duty right_duty : Z)
| Motor_Backward (left_duty right_duty : Z)
| Motor_Right (left_duty right_duty : Z)
| Motor_Left (left_duty right_duty : Z)
| Motor_Stop.

(** The motor calls of one call of [MotorControlFromGyro], in program
    order. *)
Definition MotorControlFromGyro (x y z : float32) : list Command :=
  (if Fp.gt y Fp.d0_2 then [Motor_Forward 3000 3000]
   else if Fp.lt y Fp.dm0_2 then [Motor_Backward 3000 3000]
   else [])
  ++
  (if Fp.gt x Fp.d0_2 then [Motor_Right 3000 3000]
   else if Fp.lt x Fp.dm0_2 then [Motor_Left 3000 3000]
   else [])
  ++
  (if Fp.le (Fp.fabs x) Fp.d0_2 && Fp.le (Fp.fabs y) Fp.d0_2
   then [Motor_Stop]
   else []).

(** How one turn of the [while (1)] loop of [main] ends: with the motor
    calls it made, still waiting for a byte, or in undefined behaviour.
    The hexadecimal dump of the buffer and the other text sent to the
    console are left out. *)
Inductive iteration :=
| Iterated (commands : list Command) (buffer rest : list byte)
| Waiting
| Undefined.

Definition main_iteration (BLE_UART_Buffer input : list byte) : iteration :=
  match BLE_UART_InString BLE_UART_Buffer BLE_UART_BUFFER_SIZE input with
  | Returned string_size BLE_UART_Buffer rest =>
      if 0 <? string_size then
        match
          _ ← ParseBLEPacket BLE_UART_Buffer;
          x ← ExtractFloat BLE_UART_Buffer 2;
          y ← ExtractFloat BLE_UART_Buffer 6;
          z ← ExtractFloat BLE_UART_Buffer 10;
          Some (MotorControlFromGyro x y z)
        with
        | Some commands => Iterated commands BLE_UART_Buffer rest
        | None => Undefined
        end
      else Iterated [] BLE_UART_Buffer rest
  | Blocked => Waiting
  | Overflow => Undefined
  end.

(** [uint8_t BLE_UART_Buffer[BLE_UART_BUFFER_SIZE] = {0};] *)
Definition initial_buffer : list byte :=
  replicate (Z.to_nat BLE_UART_BUFFER_SIZE) Byte.x00.

(** How a run of [main] over a finite prefix of the byte stream ends. *)
Inductive main_end :=
| Still_waiting
| Undefined_behaviour
| More_turns (buffer rest : list byte).

(** [turns] turns of the [while (1)] loop: the motor calls made, in
    order, and how the run ends. The buffer is the same array in every
    turn. *)
Fixpoint main_loop (turns : nat) (BLE_UART_Buffer input : list byte)
  : list Command * main_end :=
  match turns with
  | O => ([], More_turns BLE_UART_Buffer input)
  | S turns =>
      match main_iteration BLE_UART_Buffer input with
      | Iterated commands BLE_UART_Buffer rest =>
          let (later, e) := main_loop turns BLE_UART_Buffer rest in
          (commands ++ later, e)
      | Waiting => ([], Still_waiting)
      | Undefined => ([], Undefined_behaviour)
      end
  end.

End Main.

(** * Notions used in the statements *)

Import GyroParser BLE_UART Main.

(** ** Checksum *)

(** The sum of the values of a sequence of bytes, and the checksum the
    wire format asks for: the complement of that sum modulo 256. *)
Definition byte_sum (l : list byte) : Z := foldr (fun b acc => u8 b + acc) 0 l.

(** The bitwise complement of an 8-bit value. *)
Definition complement8 (s : Z) : Z := Z.lxor s 0xFF.

Definition checksum (l : list byte) : Z := complement8 (byte_sum l mod 256).

(** ** Numbers and samples *)

(** Zeros and finite numbers: the operands on which a comparison is the
    comparison of the rational values. *)
Definition is_number (f : spec_float) : bool :=
  match f with
  | S754_zero _ | S754_finite _ _ _ => true
  | _ => false
  end.

(** The binary32 number [m * 2^e], for the samples of the scenarios. *)
Definition f32 (m e : Z) : float32 := binary_normalize 24 128 m e false.

Definition f_zero : float32 := f32 0 0.
Definition f_half : float32 := f32 1 (-1).
Definition f_minus_half : float32 := f32 (-1) (-1).
(** [0.1f], the binary32 number nearest to 1/10. *)
Definition f_tenth : float32 := f32 13421773 (-27).
(** A quiet NaN, [0x7FC00000]. *)
Definition f_nan : float32 := b32_of_bits 0x7FC00000.

(** [|a| <= 0.2] as the mapper evaluates it. *)
Definition within (a : float32) : bool := Fp.le (Fp.fabs a) Fp.d0_2.

Definition f_1_5 : float32 := f32 3 (-1).
Definition f_m2_25 : float32 := f32 (-9) (-2).

(** ** Wire encoding *)

(** The wire encoding the frame format asks for: the bit pattern of a
    binary32 number, and its four bytes, least significant first. *)
Definition bits_of_b32 (f : float32) : Z :=
  match f with
  | S754_zero s => if s then 0x80000000 else 0
  | S754_infinity s => (if s then 0x80000000 else 0) + 0x7F800000
  | S754_nan => 0x7FC00000
  | S754_finite s m e =>
      (if s then 0x80000000 else 0)
      + (if Z.pos m <? 0x800000 then Z.pos m
         else (e + 150) * 0x800000 + (Z.pos m - 0x800000))
  end.

Definition le32 (w : Z) : list byte :=
  [byte_of_Z w; byte_of_Z (Z.shiftr w 8); byte_of_Z (Z.shiftr w 16);
   byte_of_Z (Z.shiftr w 24)].

Definition encode_f32 (f : float32) : list byte := le32 (bits_of_b32 f).

(** The numbers of the binary32 format: a subnormal has exponent -149 and
    fewer than 24 significant bits, a normal number has exactly 24. *)
Definition is_binary32 (f : float32) : bool :=
  match f with
  | S754_finite _ m e =>
      (Z.pos m <? 0x800000) && (e =? -149)
      || (0x800000 <=? Z.pos m) && (Z.pos m <? 0x1000000)
         && (-149 <=? e) && (e <=? 104)
  | _ => true
  end.

(** The frame that carries the sample [(x, y, z)]. *)
Definition frame_of (x y z : float32) : list byte :=
  let head :=
    Byte.x21 :: Byte.x47 :: encode_f32 x ++ encode_f32 y ++ encode_f32 z in
  head ++ [byte_of_Z (checksum head)].

(** ** Frames used in the examples *)

(** A valid frame carrying x = 0, y = 0.5, z = 0. *)
Definition frame_forward : list byte :=
  [Byte.x21; Byte.x47;
   Byte.x00; Byte.x00; Byte.x00; Byte.x00;
   Byte.x00; Byte.x00; Byte.x00; Byte.x3f;
   Byte.x00; Byte.x00; Byte.x00; Byte.x00;
   Byte.x58].

(** The frame [frame_forward] with a wrong checksum byte. *)
Definition frame_corrupt : list byte := <[14%nat := Byte.x00]> frame_forward.

(** ** Frame assembly *)

(** *** The frame assembler as the specification words it

    Three states: [Idle] looks for 0x21, [Matched] expects 0x47 and goes
    back to [Idle] on any other byte, which it discards, [Collecting]
    appends every byte and emits the frame when it holds 15 bytes. The
    result is the frame and the bytes behind it. *)
Inductive scan_state := Idle | Matched | Collecting.

Fixpoint spec_assemble (st : scan_state) (frame input : list byte)
  : option (list byte * list byte) :=
  match input with
  | [] => None
  | c :: input =>
      match st with
      | Idle =>
          if Byte.eqb c Byte.x21 then spec_assemble Matched [c] input
          else spec_assemble Idle [] input
      | Matched =>
          if Byte.eqb c Byte.x47
          then spec_assemble Collecting (frame ++ [c]) input
          else spec_assemble Idle [] input
      | Collecting =>
          let frame := frame ++ [c] in
          if (List.length frame =? 15)%nat then Some (frame, input)
          else spec_assemble Collecting frame input
      end
  end.

Definition spec_AssembleNext (input : list byte)
  : option (list byte * list byte) :=
  spec_assemble Idle [] input.

(** The state of the specification that goes with a value of the
    variable [state] of [BLE_UART_InString]. *)
Definition scan_of_state (state : Z) : scan_state :=
  if state =? 0 then Idle else if state =? 1 then Matched else Collecting.

(** The part of the frame in progress that goes with a value of [state]
    and [length]. *)
Inductive assembling : Z -> Z -> list byte -> Prop :=
| assembling_idle : assembling 0 0 []
| assembling_matched : assembling 1 1 [Byte.x21]
| assembling_collecting (got : list byte) :
    (List.length got < 13)%nat ->
    assembling 2 (2 + Z.of_nat (List.length got))
      (Byte.x21 :: Byte.x47 :: got).

(** ** Notions for the further properties *)

(** The motor calls [main] makes for the block of bytes [frame]: those of
    the three numbers at the offsets 2, 6 and 10. *)
Definition frame_commands (frame : list byte) : list Command :=
  match ExtractFloat frame 2, ExtractFloat frame 6, ExtractFloat frame 10 with
  | Some x, Some y, Some z => MotorControlFromGyro x y z
  | _, _, _ => []
  end.

(** The opposite motor call. *)
Definition mirror (c : Command) : Command :=
  match c with
  | Motor_Forward l r => Motor_Backward l r
  | Motor_Backward l r => Motor_Forward l r
  | Motor_Right l r => Motor_Left l r
  | Motor_Left l r => Motor_Right l r
  | Motor_Stop => Motor_Stop
  end.

(** A false start: the byte 0x21 followed by a byte [c] that is not 0x47,
    after bytes that are not 0x21. *)
Definition false_start (seg : list byte * byte) : list byte :=
  seg.1 ++ [Byte.x21; seg.2].

Definition is_false_start (seg : list byte * byte) : Prop :=
  Forall (fun c => c <> Byte.x21) seg.1 /\ seg.2 <> Byte.x47.

(** A frame of the stream as [main] meets it: bytes that are not 0x21,
    the marker, and 13 more bytes. *)
Definition framed (seg : list byte * list byte) : list byte :=
  seg.1 ++ Byte.x21 :: Byte.x47 :: seg.2.

Definition is_framed (seg : list byte * list byte) : Prop :=
  Forall (fun c => c <> Byte.x21) seg.1 /\ List.length seg.2 = 13%nat.

(** * Properties *)

(** ** Bytes and the checksum *)

Lemma u8_range (b : byte) : 0 <= u8 b < 256.
Proof.
  unfold u8. pose proof (Byte.to_N_bounded b). lia.
Qed.

Lemma u8_inj (a b : byte) : u8 a = u8 b -> a = b.
Proof.
  unfold u8. intros H. apply N2Z.inj in H.
  pose proof (Byte.of_to_N a) as Ha. rewrite H, Byte.of_to_N in Ha.
  congruence.
Qed.

Lemma u8_byte_of_Z (z : Z) : u8 (byte_of_Z z) = to_u8 z.
Proof.
  unfold byte_of_Z, to_u8.
  assert (Hr : 0 <= z mod 256 < 256) by (apply Z.mod_pos_bound; lia).
  destruct (Byte.of_N (Z.to_N (z mod 256))) as [b|] eqn:E.
  - apply Byte.to_of_N in E. unfold u8. simpl. rewrite E. lia.
  - apply Byte.of_N_None_iff in E. lia.
Qed.

Lemma to_u8_lnot (s : Z) : 0 <= s < 256 -> to_u8 (Z.lnot s) = 255 - s.
Proof.
  intros Hs. unfold to_u8, Z.lnot. symmetry.
  apply Z.mod_unique_pos with (q := -1); lia.
Qed.

Lemma complement8_eq (s : Z) : 0 <= s < 256 -> complement8 s = 255 - s.
Proof.
  intros Hs.
  assert (A : forallb (fun n => complement8 n =? 255 - n)
                (map Z.of_nat (seq 0 256)) = true)
    by (vm_compute; reflexivity).
  rewrite forallb_forall in A.
  apply Z.eqb_eq, A, in_map_iff.
  exists (Z.to_nat s). split; [lia | apply in_seq; lia].
Qed.

Lemma checksum_range (l : list byte) : 0 <= checksum l < 256.
Proof.
  unfold checksum.
  pose proof (Z.mod_pos_bound (byte_sum l) 256 ltac:(lia)).
  rewrite complement8_eq; lia.
Qed.

Section Validator.

Lemma sum_loop_ext (b1 b2 : list byte) (n i : nat) (sum : Z) :
  (forall j, (i <= j < i + n)%nat -> b1 !! j = b2 !! j) ->
  sum_loop b1 i n sum = sum_loop b2 i n sum.
Proof.
  revert i sum. induction n as [|n IH]; intros i sum Hagree; simpl.
  - reflexivity.
  - rewrite (Hagree i) by lia.
    destruct (b2 !! i) as [c|]; simpl; [|reflexivity].
    apply IH. intros j Hj. apply Hagree. lia.
Qed.

Lemma sum_loop_spec (buffer : list byte) (n i : nat) (sum : Z) :
  (i + n <= List.length buffer)%nat ->
  sum_loop buffer i n sum
  = Some (if n is O then sum
          else (sum + byte_sum (take n (drop i buffer))) mod 256).
Proof.
  revert i sum. induction n as [|n IH]; intros i sum Hlen; simpl.
  - reflexivity.
  - destruct (lookup_lt_is_Some_2 buffer i ltac:(lia)) as [c Hc].
    rewrite Hc. simpl. rewrite IH by lia.
    rewrite (drop_S _ _ _ Hc). simpl. f_equal.
    destruct n as [|n].
    + rewrite take_0. simpl. unfold to_u8. f_equal. lia.
    + unfold to_u8. rewrite Zplus_mod_idemp_l. f_equal. lia.
Qed.

Lemma ValidateCRC_spec (frame : list byte) (c : byte) :
  frame !! 14%nat = Some c ->
  ValidateCRC frame = Some (checksum (take 14 frame) =? u8 c).
Proof.
  intros Hc. unfold ValidateCRC.
  pose proof (lookup_lt_Some _ _ _ Hc) as Hlen.
  rewrite sum_loop_spec by (simpl; lia). simpl.
  rewrite Hc. simpl. rewrite drop_0.
  rewrite to_u8_lnot by (apply Z.mod_pos_bound; lia).
  unfold checksum. rewrite complement8_eq by (apply Z.mod_pos_bound; lia).
  reflexivity.
Qed.

Lemma checkCRC_eq (buffer : list byte) : checkCRC buffer = ValidateCRC buffer.
Proof. reflexivity. Qed.

Lemma ValidateBLEPacket_spec (frame : list byte) (b0 b1 c : byte) :
  frame !! 0%nat = Some b0 -> frame !! 1%nat = Some b1 ->
  frame !! 14%nat = Some c ->
  ValidateBLEPacket frame
  = Some ((u8 b0 =? 0x21) && (u8 b1 =? 0x47)
          && (checksum (take 14 frame) =? u8 c)).
Proof.
  intros H0 H1 H14. unfold ValidateBLEPacket.
  rewrite H0. simpl. destruct (u8 b0 =? 0x21); simpl; [|reflexivity].
  rewrite H1. simpl. destruct (u8 b1 =? 0x47); simpl; [|reflexivity].
  apply ValidateCRC_spec, H14.
Qed.

Lemma u8_eqb_Some (l : list byte) (i : nat) (b k : byte) :
  l !! i = Some b -> (u8 b =? u8 k) = true <-> l !! i = Some k.
Proof.
  intros Hb. rewrite Z.eqb_eq. split.
  - intros E. apply u8_inj in E. congruence.
  - intros E. congruence.
Qed.

(** C3. A 15-byte frame passes [ValidateBLEPacket] exactly when byte 0 is
    0x21, byte 1 is 0x47 and byte 14 is the bitwise complement of the sum
    of bytes 0..13 modulo 256. Hence a frame whose byte 0 is not 0x21 or
    whose byte 1 is not 0x47 is rejected whatever its checksum byte is,
    and the frame built from the marker, any 12 payload bytes and that
    checksum byte is accepted. *)
Theorem ValidateBLEPacket_iff (frame payload : list byte) :
  List.length frame = 15%nat ->
  List.length payload = 12%nat ->
  (ValidateBLEPacket frame = Some true <->
     frame !! 0%nat = Some Byte.x21 /\
     frame !! 1%nat = Some Byte.x47 /\
     u8 <$> frame !! 14%nat = Some (checksum (take 14 frame)))
  /\ (ValidateBLEPacket frame <> Some true ->
      ValidateBLEPacket frame = Some false)
  /\ (frame !! 0%nat <> Some Byte.x21 \/ frame !! 1%nat <> Some Byte.x47 ->
      ValidateBLEPacket frame = Some false)
  /\ (let head := Byte.x21 :: Byte.x47 :: payload in
      ValidateBLEPacket (head ++ [byte_of_Z (checksum head)]) = Some true).
Proof.
  intros Hlen Hpay.
  destruct (lookup_lt_is_Some_2 frame 0 ltac:(lia)) as [b0 H0].
  destruct (lookup_lt_is_Some_2 frame 1 ltac:(lia)) as [b1 H1].
  destruct (lookup_lt_is_Some_2 frame 14 ltac:(lia)) as [c H14].
  pose proof (ValidateBLEPacket_spec frame b0 b1 c H0 H1 H14) as E.
  pose proof (u8_eqb_Some frame 0 b0 Byte.x21 H0) as M0.
  pose proof (u8_eqb_Some frame 1 b1 Byte.x47 H1) as M1.
  change (u8 Byte.x21) with 0x21 in M0. change (u8 Byte.x47) with 0x47 in M1.
  assert (Hiff : ValidateBLEPacket frame = Some true <->
     frame !! 0%nat = Some Byte.x21 /\
     frame !! 1%nat = Some Byte.x47 /\
     u8 <$> frame !! 14%nat = Some (checksum (take 14 frame))).
  { rewrite E, <- M0, <- M1, H14. simpl. split.
    - intros [= V]. apply andb_prop in V as [V V3].
      apply andb_prop in V as [V1 V2]. apply Z.eqb_eq in V3.
      repeat split; congruence.
    - intros (V1 & V2 & [= V3]). rewrite V1, V2, V3, Z.eqb_refl.
      reflexivity. }
  split; [exact Hiff|]. split; [|split].
  - rewrite E. destruct (_ && _); congruence.
  - intros Hm. rewrite E.
    destruct (u8 b0 =? 0x21) eqn:E0; simpl; [|reflexivity].
    destruct (u8 b1 =? 0x47) eqn:E1; simpl; [|reflexivity].
    exfalso. destruct Hm as [Hm|Hm]; apply Hm; [apply M0|apply M1]; done.
  - intros head.
    assert (Hh : List.length head = 14%nat) by (simpl; lia).
    rewrite (ValidateBLEPacket_spec _ Byte.x21 Byte.x47
               (byte_of_Z (checksum head))).
    + rewrite take_app_length' by (symmetry; exact Hh).
      rewrite u8_byte_of_Z. unfold to_u8.
      rewrite Z.mod_small by apply checksum_range.
      rewrite (Z.eqb_refl (checksum head)). reflexivity.
    + reflexivity.
    + reflexivity.
    + rewrite lookup_app_r by lia. rewrite Hh. reflexivity.
Qed.

Lemma ValidateBLEPacket_iff_witness :
  ValidateBLEPacket frame_forward = Some true
  /\ ValidateBLEPacket frame_corrupt = Some false
  /\ ValidateBLEPacket
       ((Byte.x21 :: Byte.x47 :: replicate 12 Byte.xff)
        ++ [byte_of_Z
              (checksum (Byte.x21 :: Byte.x47 :: replicate 12 Byte.xff))])
     = Some true.
Proof.
  pose proof (ValidateBLEPacket_iff frame_forward (replicate 12 Byte.xff)
                eq_refl eq_refl) as (Hiff & _ & _ & Hbuilt).
  pose proof (ValidateBLEPacket_iff frame_corrupt (replicate 12 Byte.xff)
                eq_refl eq_refl) as (_ & Hno & _ & _).
  split; [|split].
  - apply Hiff. repeat split.
  - apply Hno. vm_compute. discriminate.
  - exact Hbuilt.
Defined.

(** C8. [ValidateBLEPacket], [ValidateCRC] and [checkCRC] read bytes 0..14
    only: two buffers that agree there get the same verdict, and a buffer
    whose first 15 bytes are a valid frame is accepted whatever follows
    them. *)
Theorem validation_reads_15_bytes (b1 b2 frame tail : list byte) :
  (forall i, (i < 15)%nat -> b1 !! i = b2 !! i) ->
  ValidateBLEPacket frame = Some true ->
  List.length frame = 15%nat ->
  ValidateBLEPacket b1 = ValidateBLEPacket b2
  /\ ValidateCRC b1 = ValidateCRC b2
  /\ checkCRC b1 = checkCRC b2
  /\ ValidateBLEPacket (frame ++ tail) = Some true.
Proof.
  assert (Hcrc : forall a b : list byte,
             (forall i, (i < 15)%nat -> a !! i = b !! i) ->
             ValidateCRC a = ValidateCRC b).
  { intros a b Hab. unfold ValidateCRC.
    rewrite (sum_loop_ext a b) by (intros j Hj; apply Hab; lia).
    rewrite (Hab 14%nat) by lia. reflexivity. }
  assert (Hval : forall a b : list byte,
             (forall i, (i < 15)%nat -> a !! i = b !! i) ->
             ValidateBLEPacket a = ValidateBLEPacket b).
  { intros a b Hab. unfold ValidateBLEPacket.
    rewrite (Hab 0%nat), (Hab 1%nat), (Hcrc a b Hab) by lia. reflexivity. }
  intros Hagree Hvalid Hlen.
  split; [auto|]. split; [auto|]. split; [rewrite !checkCRC_eq; auto|].
  rewrite <- Hvalid. apply Hval. intros i Hi.
  apply lookup_app_l. lia.
Qed.

Lemma validation_reads_15_bytes_witness :
  ValidateBLEPacket (frame_forward ++ [Byte.x01; Byte.x02])
  = ValidateBLEPacket (frame_forward ++ [Byte.xfe])
  /\ ValidateCRC (frame_forward ++ [Byte.x01; Byte.x02])
     = ValidateCRC (frame_forward ++ [Byte.xfe])
  /\ checkCRC (frame_forward ++ [Byte.x01; Byte.x02])
     = checkCRC (frame_forward ++ [Byte.xfe])
  /\ ValidateBLEPacket (frame_forward ++ replicate 113 Byte.x00) = Some true.
Proof.
  apply (validation_reads_15_bytes
           (frame_forward ++ [Byte.x01; Byte.x02])
           (frame_forward ++ [Byte.xfe])
           frame_forward (replicate 113 Byte.x00)).
  - intros i Hi. rewrite !lookup_app_l by (simpl; lia). reflexivity.
  - vm_compute. reflexivity.
  - reflexivity.
Defined.

End Validator.

(** ** Comparison of floating-point values *)

Section Comparison.

Import Fp.

Lemma compare_numbers (a b : spec_float) :
  is_number a = true -> is_number b = true ->
  compare a b = Some (Qcompare (value a) (value b)).
Proof. destruct a, b; simpl; intros; congruence. Qed.

Lemma gt_numbers (a b : spec_float) :
  is_number a = true -> is_number b = true ->
  gt a b = true <-> (value b < value a)%Q.
Proof.
  intros Ha Hb. unfold gt. rewrite compare_numbers by assumption.
  rewrite Qlt_alt, <- (Qcompare_antisym (value a)).
  destruct (Qcompare (value a) (value b)); simpl; split; congruence.
Qed.

Lemma lt_numbers (a b : spec_float) :
  is_number a = true -> is_number b = true ->
  lt a b = true <-> (value a < value b)%Q.
Proof.
  intros Ha Hb. unfold lt. rewrite compare_numbers by assumption.
  rewrite Qlt_alt.
  destruct (Qcompare (value a) (value b)); simpl; split; congruence.
Qed.

Lemma le_numbers (a b : spec_float) :
  is_number a = true -> is_number b = true ->
  le a b = true <-> (value a <= value b)%Q.
Proof.
  intros Ha Hb. unfold le. rewrite compare_numbers by assumption.
  rewrite Qle_alt.
  destruct (Qcompare (value a) (value b)); simpl; split; congruence.
Qed.

Lemma value_fabs (a : spec_float) : value (fabs a) = Qabs (value a).
Proof.
  destruct a as [s|s| |s m e]; simpl; try reflexivity.
  assert (P : forall p : positive, 0 <= 2 ^ Z.pos p) by (intros; lia).
  destruct s, e as [|p|p]; try reflexivity;
    unfold dyadic, inject_Z, Qabs; f_equal.
  - rewrite Z.abs_mul, (Z.abs_eq (2 ^ Z.pos p)) by apply P. reflexivity.
  - rewrite Z.abs_mul, (Z.abs_eq (2 ^ Z.pos p)) by apply P. reflexivity.
Qed.

(** A value that is not a NaN, not above [0.2] and not below [-0.2] has
    an absolute value of at most [0.2]. *)
Lemma within_threshold (a : spec_float) :
  is_nan a = false -> gt a d0_2 = false -> lt a dm0_2 = false ->
  le (fabs a) d0_2 = true.
Proof.
  destruct a as [s|s| |s m e]; intros Hnan Hgt Hlt.
  - reflexivity.
  - destruct s; [cbv in Hlt | cbv in Hgt]; discriminate.
  - discriminate.
  - assert (Hn : is_number (S754_finite s m e) = true) by reflexivity.
    apply le_numbers; [reflexivity..|].
    rewrite (value_fabs (S754_finite s m e)).
    assert (G : ~ (value d0_2 < value (S754_finite s m e))%Q).
    { intros G. apply (gt_numbers _ d0_2 Hn eq_refl) in G. congruence. }
    assert (L : ~ (value (S754_finite s m e) < value dm0_2)%Q).
    { intros L. apply (lt_numbers _ dm0_2 Hn eq_refl) in L. congruence. }
    apply Qnot_lt_le in G, L.
    change (value dm0_2) with (Qopp (value d0_2)) in L.
    apply Qabs_Qle_condition. split; assumption.
Qed.

(** Conversely, an absolute value of at most [0.2] excludes both strict
    comparisons. *)
Lemma within_threshold_inv (a : spec_float) :
  le (fabs a) d0_2 = true -> gt a d0_2 = false /\ lt a dm0_2 = false.
Proof.
  destruct a as [s|s| |s m e]; intros Hle.
  - destruct s; split; reflexivity.
  - cbv in Hle. discriminate.
  - discriminate.
  - assert (Hn : is_number (S754_finite s m e) = true) by reflexivity.
    apply (le_numbers (fabs (S754_finite s m e)) d0_2) in Hle;
      [|reflexivity..].
    rewrite (value_fabs (S754_finite s m e)) in Hle.
    apply Qabs_Qle_condition in Hle as [L G].
    change (Qopp (value d0_2)) with (value dm0_2) in L.
    split.
    + destruct (gt (S754_finite s m e) d0_2) eqn:E; [|reflexivity].
      apply (gt_numbers _ d0_2 Hn eq_refl) in E.
      exfalso. exact (Qlt_not_le _ _ E G).
    + destruct (lt (S754_finite s m e) dm0_2) eqn:E; [|reflexivity].
      apply (lt_numbers _ dm0_2 Hn eq_refl) in E.
      exfalso. exact (Qlt_not_le _ _ E L).
Qed.

End Comparison.

(** ** The command mapper *)

Section Mapper.

Lemma sample_values :
  (Fp.value f_zero == 0)%Q /\ (Fp.value f_half == 1 # 2)%Q /\
  (Fp.value f_minus_half == - (1 # 2))%Q /\
  (Qabs (Fp.value f_tenth - (1 # 10)) <= 1 # 2 ^ 28)%Q /\
  (Qabs (Fp.value Fp.d0_2 - (1 # 5)) <= 1 # 2 ^ 56)%Q /\
  Fp.is_nan f_nan = true.
Proof. repeat split; vm_compute; congruence. Qed.

(** No binary32 number lies between 1/5 and the double nearest to 1/5. *)
Lemma no_binary32_at_threshold (s : bool) (m : positive) (e : Z) :
  is_binary32 (S754_finite s m e) = true ->
  (1 # 5 < Fp.dyadic (Z.pos m) e)%Q ->
  (Fp.value Fp.d0_2 < Fp.dyadic (Z.pos m) e)%Q.
Proof.
  intros Hf.
  assert (Hf' : Z.pos m < 0x800000 /\ e = -149
                \/ 0x800000 <= Z.pos m < 0x1000000 /\ -149 <= e <= 104).
  { unfold is_binary32 in Hf.
    rewrite orb_true_iff, !andb_true_iff, !Z.ltb_lt, !Z.leb_le, Z.eqb_eq
      in Hf. lia. }
  clear Hf. unfold Fp.d0_2, Fp.value, Fp.dyadic.
  destruct e as [|p|p].
  - unfold Qlt. simpl. lia.
  - assert (0 < 2 ^ Z.pos p) by lia. unfold Qlt. simpl Qnum. simpl Qden. nia.
  - unfold Qlt. simpl Qnum. simpl Qden.
    rewrite Pos2Z.inj_pow.
    change (Z.pos (2 ^ 55)) with (2 ^ 55).
    destruct (Z.le_gt_cases (Z.pos p) 25) as [Hp|Hp].
    + assert (2 ^ Z.pos p <= 2 ^ 25) by (apply Z.pow_le_mono_r; lia).
      assert (0 < 2 ^ Z.pos p) by lia.
      change (2 ^ 25) with 33554432 in *. change (2 ^ 55) with 36028797018963968.
      intros _. lia.
    + destruct (Z.eq_dec (Z.pos p) 26) as [->|Hne].
      * change (2 ^ 26) with 67108864. change (2 ^ 55) with 36028797018963968.
        lia.
      * assert (2 ^ 27 <= 2 ^ Z.pos p) by (apply Z.pow_le_mono_r; lia).
        change (2 ^ 27) with 134217728 in *. intros. lia.
Qed.

(** For a binary32 sample the comparisons with the [double] literals
    [0.2] and [-0.2] are the comparisons of its value with 1/5 and -1/5. *)
Lemma thresholds_exact (a : float32) :
  is_binary32 a = true -> is_number a = true ->
  (Fp.gt a Fp.d0_2 = true <-> (1 # 5 < Fp.value a)%Q)
  /\ (Fp.lt a Fp.dm0_2 = true <-> (Fp.value a < - (1 # 5))%Q)
  /\ (within a = true <-> (Qabs (Fp.value a) <= 1 # 5)%Q).
Proof.
  intros Hb Hn.
  rewrite (gt_numbers a Fp.d0_2 Hn eq_refl).
  rewrite (lt_numbers a Fp.dm0_2 Hn eq_refl).
  unfold within.
  rewrite (le_numbers (Fp.fabs a) Fp.d0_2) by (destruct a; easy).
  rewrite value_fabs.
  change (Fp.value Fp.dm0_2) with (Qopp (Fp.value Fp.d0_2)).
  assert (T : (1 # 5 < Fp.value Fp.d0_2)%Q) by (vm_compute; reflexivity).
  assert (K : (1 # 5 < Qabs (Fp.value a))%Q ->
              (Fp.value Fp.d0_2 < Qabs (Fp.value a))%Q).
  { destruct a as [s|s| |s m e]; try discriminate.
    rewrite <- (value_fabs (S754_finite s m e)).
    apply (no_binary32_at_threshold s m e Hb). }
  set (v := Fp.value a) in *. set (t := Fp.value Fp.d0_2) in *.
  clearbody v t.
  pose proof (Qabs_nonneg v) as N.
  pose proof (Qle_Qabs v) as U.
  pose proof (Qle_Qabs (- v)) as L. rewrite Qabs_opp in L.
  split; [|split]; split; intros H.
  - lra.
  - destruct (Qlt_le_dec v 0) as [Hv|Hv]; [lra|].
    pose proof (Qabs_pos v Hv) as P. rewrite P in K. lra.
  - lra.
  - assert (Hv : (v <= 0)%Q) by lra.
    pose proof (Qabs_neg v Hv) as P. rewrite P in K. lra.
  - apply Qnot_lt_le. intros C. apply K in C. lra.
  - lra.
Qed.

Lemma Stop_iff (x y z : float32) :
  In Motor_Stop (MotorControlFromGyro x y z)
  <-> within x = true /\ within y = true.
Proof.
  unfold MotorControlFromGyro, within.
  rewrite <- andb_true_iff.
  destruct (Fp.gt y Fp.d0_2), (Fp.lt y Fp.dm0_2), (Fp.gt x Fp.d0_2),
    (Fp.lt x Fp.dm0_2), (_ && _); simpl; intuition congruence.
Qed.

(** C4. The six threshold scenarios. *)
Theorem threshold_scenarios :
  MotorControlFromGyro f_zero f_half f_zero = [Motor_Forward 3000 3000]
  /\ MotorControlFromGyro f_zero f_minus_half f_zero
     = [Motor_Backward 3000 3000]
  /\ MotorControlFromGyro f_half f_zero f_zero = [Motor_Right 3000 3000]
  /\ MotorControlFromGyro f_minus_half f_zero f_zero
     = [Motor_Left 3000 3000]
  /\ MotorControlFromGyro f_tenth f_tenth f_zero = [Motor_Stop]
  /\ MotorControlFromGyro f_half f_half f_zero
     = [Motor_Forward 3000 3000; Motor_Right 3000 3000].
Proof. repeat split; vm_compute; reflexivity. Qed.



(** C9. One call of [MotorControlFromGyro] never makes both a forward and
    a backward call, and never both a right and a left call. *)
Theorem directions_exclusive (x y z : float32) (l r l' r' : Z) :
  ~ (In (Motor_Forward l r) (MotorControlFromGyro x y z)
     /\ In (Motor_Backward l' r') (MotorControlFromGyro x y z))
  /\ ~ (In (Motor_Right l r) (MotorControlFromGyro x y z)
        /\ In (Motor_Left l' r') (MotorControlFromGyro x y z)).
Proof.
  unfold MotorControlFromGyro.
  destruct (Fp.gt y Fp.d0_2), (Fp.lt y Fp.dm0_2), (Fp.gt x Fp.d0_2),
    (Fp.lt x Fp.dm0_2), (_ && _); simpl; intuition congruence.
Qed.

(** The comparisons made on a NaN are all false. *)
Lemma nan_comparisons (a : float32) :
  Fp.is_nan a = true ->
  Fp.gt a Fp.d0_2 = false /\ Fp.lt a Fp.dm0_2 = false /\ within a = false.
Proof. destruct a; simpl; intros; try discriminate. repeat split. Qed.

(** C10, first half as stated; second half as the code has it. When
    neither [x] nor [y] is a NaN at least one motor call is made. When [x]
    or [y] is a NaN the comparisons on that value are all false, so
    [Motor_Stop] is not called and that axis makes no call; the other axis
    still makes its call. No call at all is made when both are NaN. *)
Theorem MotorControlFromGyro_nan (x y z : float32) :
  (Fp.is_nan x = false -> Fp.is_nan y = false ->
   MotorControlFromGyro x y z <> [])
  /\ (Fp.is_nan x = true ->
      MotorControlFromGyro x y z
      = if Fp.gt y Fp.d0_2 then [Motor_Forward 3000 3000]
        else if Fp.lt y Fp.dm0_2 then [Motor_Backward 3000 3000] else [])
  /\ (Fp.is_nan y = true ->
      MotorControlFromGyro x y z
      = if Fp.gt x Fp.d0_2 then [Motor_Right 3000 3000]
        else if Fp.lt x Fp.dm0_2 then [Motor_Left 3000 3000] else [])
  /\ (Fp.is_nan x = true -> Fp.is_nan y = true ->
      MotorControlFromGyro x y z = []).
Proof.
  unfold MotorControlFromGyro. split; [|split; [|split]].
  - intros Hx Hy.
    pose proof (within_threshold x Hx) as Wx.
    pose proof (within_threshold y Hy) as Wy.
    destruct (Fp.gt y Fp.d0_2); [discriminate|].
    destruct (Fp.lt y Fp.dm0_2); [discriminate|].
    destruct (Fp.gt x Fp.d0_2); [discriminate|].
    destruct (Fp.lt x Fp.dm0_2); [discriminate|].
    rewrite Wx, Wy by reflexivity. discriminate.
  - intros Hx. destruct (nan_comparisons x Hx) as (-> & -> & W).
    unfold within in W. rewrite W. simpl. rewrite app_nil_r. reflexivity.
  - intros Hy. destruct (nan_comparisons y Hy) as (-> & -> & W).
    unfold within in W. rewrite W, andb_false_r. simpl.
    rewrite app_nil_r. reflexivity.
  - intros Hx Hy. destruct (nan_comparisons x Hx) as (-> & -> & W).
    destruct (nan_comparisons y Hy) as (-> & -> & _).
    unfold within in W. rewrite W. reflexivity.
Qed.

Lemma MotorControlFromGyro_nan_witness :
  MotorControlFromGyro f_zero f_zero f_zero <> []
  /\ MotorControlFromGyro f_nan f_half f_zero = [Motor_Forward 3000 3000]
  /\ MotorControlFromGyro f_half f_nan f_zero = [Motor_Right 3000 3000]
  /\ MotorControlFromGyro f_nan f_nan f_zero = [].
Proof.
  split; [|split; [|split]].
  - apply (proj1 (MotorControlFromGyro_nan f_zero f_zero f_zero));
      reflexivity.
  - apply (proj1 (proj2 (MotorControlFromGyro_nan f_nan f_half f_zero))).
    reflexivity.
  - apply (proj1 (proj2 (proj2
             (MotorControlFromGyro_nan f_half f_nan f_zero)))).
    reflexivity.
  - apply (proj2 (proj2 (proj2
             (MotorControlFromGyro_nan f_nan f_nan f_zero))));
      reflexivity.
Defined.

(** C10 as stated fails: with [x] a NaN and [y = 0.5] the forward call is
    still made. *)
Lemma nan_axis_still_commands :
  MotorControlFromGyro f_nan f_half f_zero = [Motor_Forward 3000 3000]
  /\ ~ (forall x y z : float32,
           Fp.is_nan x = true \/ Fp.is_nan y = true ->
           MotorControlFromGyro x y z = []).
Proof.
  split; [vm_compute; reflexivity|].
  intros H. specialize (H f_nan f_half f_zero (or_introl eq_refl)).
  vm_compute in H. discriminate.
Qed.

End Mapper.

(** ** The frame assembler *)

Section Assembler.

Lemma InString_loop_nil (size : Z) (buffer : list byte) (ptr length state : Z) :
  InString_loop size [] buffer ptr length state
  = if length <? size then Blocked else Returned length buffer [].
Proof. reflexivity. Qed.

Lemma store_in_range (buffer : list byte) (i : nat) (c : byte) :
  (i < List.length buffer)%nat ->
  store buffer (Z.of_nat i) c = Some (<[i := c]> buffer).
Proof.
  intros Hi. unfold store.
  replace (0 <=? Z.of_nat i) with true by (symmetry; apply Z.leb_le; lia).
  replace (Z.of_nat i <? Z.of_nat (List.length buffer)) with true
    by (symmetry; apply Z.ltb_lt; lia).
  simpl. rewrite Nat2Z.id. reflexivity.
Qed.

Lemma u8_eqb_marker (c k : byte) : (u8 c =? u8 k) = true <-> c = k.
Proof.
  rewrite Z.eqb_eq. split; [apply u8_inj | congruence].
Qed.

(** In state 0 a byte other than 0x21 takes the reset branch and leaves
    everything as it was. *)
Lemma skip_noise (size : Z) (noise input buffer : list byte) (ptr : Z) :
  0 < size ->
  Forall (fun c => c <> Byte.x21) noise ->
  InString_loop size (noise ++ input) buffer ptr 0 0
  = InString_loop size input buffer ptr 0 0.
Proof.
  intros Hsize. induction 1 as [|c noise Hc _ IH]; [reflexivity|].
  simpl app. simpl InString_loop.
  replace (0 <? size) with true by (symmetry; apply Z.ltb_lt; lia).
  replace (u8 c =? 33) with false.
  - simpl. rewrite Z.sub_0_r. exact IH.
  - symmetry. apply not_true_is_false. intros E.
    apply (u8_eqb_marker c Byte.x21) in E. contradiction.
Qed.

(** In state 2 the bytes still missing are stored one after the other and
    the call returns 15 after the last of them. *)
Lemma collect (size : Z) (rest : list byte) (body : list byte) :
  forall (buffer : list byte) (i : nat) (length : Z),
    body <> [] ->
    length + Z.of_nat (List.length body) = 15 ->
    15 <= size ->
    (i + List.length body <= List.length buffer)%nat ->
    InString_loop size (body ++ rest) buffer (Z.of_nat i) length 2
    = Returned 15
        (take i buffer ++ body ++ drop (i + List.length body) buffer) rest.
Proof.
  induction body as [|c body IH]; intros buffer i length Hne Hlen Hsize Hfit;
    [contradiction|].
  simpl List.length in *. simpl app. simpl InString_loop.
  replace (length <? size) with true by (symmetry; apply Z.ltb_lt; lia).
  rewrite store_in_range by lia.
  destruct body as [|c' body]; simpl List.length in *.
  - replace (length + 1 =? 15) with true by (symmetry; apply Z.eqb_eq; lia).
    replace (length + 1) with 15 by lia.
    rewrite insert_take_drop by lia. simpl.
    replace (i + 1)%nat with (S i) by lia. reflexivity.
  - replace (length + 1 =? 15) with false
      by (symmetry; apply Z.eqb_neq; simpl in Hlen; lia).
    replace (Z.of_nat i + 1) with (Z.of_nat (S i)) by lia.
    rewrite IH; [|discriminate|simpl in *; lia|lia|
                 rewrite length_insert; simpl in *; lia].
    f_equal.
    rewrite (take_S_r _ _ c)
      by (apply list_lookup_insert_eq; lia).
    rewrite take_insert_ge by lia.
    rewrite drop_insert_lt by (simpl; lia).
    rewrite <- app_assoc. simpl.
    replace (S (i + S (List.length body)))%nat
      with (i + S (S (List.length body)))%nat by lia.
    reflexivity.
Qed.

(** A marker met in state 0, followed by 13 bytes, is collected at the
    place [buffer_pointer] has reached. *)
Lemma collect_frame (size : Z) (body rest buffer : list byte) (i : nat) :
  List.length body = 13%nat ->
  15 <= size ->
  (i + 15 <= List.length buffer)%nat ->
  InString_loop size (Byte.x21 :: Byte.x47 :: body ++ rest) buffer
    (Z.of_nat i) 0 0
  = Returned 15
      (take i buffer ++ Byte.x21 :: Byte.x47 :: body ++ drop (i + 15) buffer)
      rest.
Proof.
  intros Hbody Hsize Hfit.
  simpl InString_loop.
  replace (0 <? size) with true by (symmetry; apply Z.ltb_lt; lia).
  rewrite store_in_range by lia.
  replace (1 <? size) with true by (symmetry; apply Z.ltb_lt; lia).
  replace (Z.of_nat i + 1) with (Z.of_nat (S i)) by lia.
  rewrite store_in_range by (rewrite length_insert; lia).
  replace (Z.of_nat (S i) + 1) with (Z.of_nat (S (S i))) by lia.
  rewrite collect;
    [|intros ->; discriminate|simpl; lia|lia|rewrite !length_insert; lia].
  f_equal.
  rewrite (take_S_r _ _ Byte.x47)
    by (apply list_lookup_insert_eq; rewrite length_insert; lia).
  rewrite take_insert_ge by lia.
  rewrite (take_S_r _ _ Byte.x21) by (apply list_lookup_insert_eq; lia).
  rewrite (take_insert_ge buffer) by lia.
  rewrite !drop_insert_lt by lia.
  rewrite Hbody, <- !app_assoc. simpl.
  replace (S (S (i + 13)))%nat with (i + 15)%nat by lia.
  reflexivity.
Qed.

Lemma valid_frame_shape (frame : list byte) :
  List.length frame = 15%nat ->
  ValidateBLEPacket frame = Some true ->
  exists body, frame = Byte.x21 :: Byte.x47 :: body /\ List.length body = 13%nat.
Proof.
  intros Hlen Hvalid.
  destruct frame as [|b0 [|b1 body]]; try discriminate.
  unfold ValidateBLEPacket in Hvalid. simpl in Hvalid.
  destruct (u8 b0 =? 33) eqn:E0; [|discriminate].
  destruct (u8 b1 =? 71) eqn:E1; [|discriminate].
  apply (u8_eqb_marker b0 Byte.x21) in E0.
  apply (u8_eqb_marker b1 Byte.x47) in E1.
  exists body. subst. split; [reflexivity | simpl in Hlen; lia].
Qed.

(** C2, for noise without the byte 0x21. Noise bytes none of which is 0x21,
    followed by a valid 15-byte frame: the call returns 15 when the last
    byte of the frame is read, the first 15 bytes of the buffer are the
    frame, and nothing of the noise is stored. *)
Theorem resynchronization (noise frame rest buffer : list byte)
    (buffer_size : Z) :
  Forall (fun c => c <> Byte.x21) noise ->
  List.length frame = 15%nat ->
  ValidateBLEPacket frame = Some true ->
  15 <= buffer_size ->
  Z.of_nat (List.length buffer) = buffer_size ->
  BLE_UART_InString buffer buffer_size (noise ++ frame ++ rest)
  = Returned 15 (frame ++ drop 15 buffer) rest.
Proof.
  intros Hnoise Hlen Hvalid Hsize Hbuf.
  destruct (valid_frame_shape frame Hlen Hvalid) as (body & -> & Hbody).
  unfold BLE_UART_InString.
  rewrite skip_noise by (assumption || lia).
  change 0 with (Z.of_nat 0) at 1.
  simpl app.
  rewrite collect_frame by (assumption || lia).
  reflexivity.
Qed.

Lemma resynchronization_witness :
  BLE_UART_InString initial_buffer 128
    ([Byte.x00; Byte.x47; Byte.xff] ++ frame_forward ++ [])
  = Returned 15 (frame_forward ++ drop 15 initial_buffer) [].
Proof.
  apply (resynchronization [Byte.x00; Byte.x47; Byte.xff] frame_forward []
           initial_buffer 128).
  - repeat constructor; discriminate.
  - reflexivity.
  - vm_compute. reflexivity.
  - lia.
  - vm_compute. reflexivity.
Defined.

(** C2 as stated fails: when the noise holds the marker itself, the
    assembler starts to collect inside the noise and hands over a block
    that is not the frame. *)
Lemma marker_in_noise :
  ValidateBLEPacket frame_forward = Some true
  /\ BLE_UART_InString initial_buffer 128
       ([Byte.x21; Byte.x47] ++ frame_forward)
     = Returned 15
         (Byte.x21 :: Byte.x47 :: take 13 frame_forward
          ++ drop 15 initial_buffer)
         (drop 13 frame_forward)
  /\ ~ (exists buffer',
           BLE_UART_InString initial_buffer 128
             ([Byte.x21; Byte.x47] ++ frame_forward)
           = Returned 15 buffer' []
           /\ take 15 buffer' = frame_forward).
Proof.
  split; [vm_compute; reflexivity|].
  split; [vm_compute; reflexivity|].
  intros (buffer' & H & _). vm_compute in H. discriminate.
Qed.

(** The reset branch sets [length] to 0 before it computes
    [buffer_pointer - length], so the pointer stays where it is: after a
    false start the bytes stored so far remain at the start of the buffer
    and the frame is stored behind them. *)
Lemma reset_keeps_pointer :
  BLE_UART_InString initial_buffer 128
    ([Byte.x21; Byte.x00] ++ frame_forward)
  = Returned 15
      (Byte.x21 :: frame_forward ++ drop 16 initial_buffer) [].
Proof. vm_compute. reflexivity. Qed.

Lemma InString_loop_frame (size : Z) (input : list byte) :
  15 <= size ->
  forall (buffer : list byte) (ptr length state : Z) (part : list byte)
         (n : Z) (buffer' rest : list byte),
    assembling state length part ->
    InString_loop size input buffer ptr length state
    = Returned n buffer' rest ->
    n = 15 /\
    exists skipped body,
      part ++ input = skipped ++ Byte.x21 :: Byte.x47 :: body ++ rest
      /\ List.length body = 13%nat.
Proof.
  intros Hsize.
  induction input as [|c input IH];
    intros buffer ptr length state part n buffer' rest Hinv Hret.
  - rewrite InString_loop_nil in Hret.
    replace (length <? size) with true in Hret
      by (symmetry; apply Z.ltb_lt; destruct Hinv; lia).
    discriminate.
  - simpl InString_loop in Hret.
    replace (length <? size) with true in Hret
      by (symmetry; apply Z.ltb_lt; destruct Hinv; lia).
    destruct Hinv as [| |got Hgot]; simpl in Hret.
    + destruct (u8 c =? 33) eqn:E.
      * apply (u8_eqb_marker c Byte.x21) in E. subst c.
        destruct (store buffer ptr Byte.x21); [|discriminate].
        apply (IH _ _ _ _ _ _ _ _ assembling_matched) in Hret.
        exact Hret.
      * apply (IH _ _ _ _ _ _ _ _ assembling_idle) in Hret.
        destruct Hret as (-> & skipped & body & Hsplit & Hbody).
        split; [reflexivity|]. exists (c :: skipped), body.
        simpl in *. rewrite Hsplit. auto.
    + destruct (u8 c =? 71) eqn:E.
      * apply (u8_eqb_marker c Byte.x47) in E. subst c.
        destruct (store buffer ptr Byte.x47); [|discriminate].
        apply (IH _ _ _ _ [Byte.x21; Byte.x47]) in Hret;
          [exact Hret|].
        apply (assembling_collecting []). simpl. lia.
      * apply (IH _ _ _ _ _ _ _ _ assembling_idle) in Hret.
        destruct Hret as (-> & skipped & body & Hsplit & Hbody).
        split; [reflexivity|]. exists (Byte.x21 :: c :: skipped), body.
        simpl in *. rewrite Hsplit. auto.
    + destruct (store buffer ptr c); [|discriminate].
      destruct (2 + Z.of_nat (List.length got) + 1 =? 15) eqn:E.
      * apply Z.eqb_eq in E. injection Hret as <- _ <-.
        split; [exact E|]. exists [], (got ++ [c]).
        rewrite length_app. simpl. rewrite <- !app_assoc. simpl.
        split; [reflexivity | lia].
      * apply Z.eqb_neq in E.
        apply (IH _ _ _ _ (Byte.x21 :: Byte.x47 :: got ++ [c])) in Hret.
        -- simpl in Hret |- *. rewrite <- app_assoc in Hret. exact Hret.
        -- replace (2 + Z.of_nat (List.length got) + 1)
             with (2 + Z.of_nat (List.length (got ++ [c])))
             by (rewrite length_app; simpl; lia).
           apply assembling_collecting. rewrite length_app. simpl. lia.
Qed.

Lemma eqb_u8 (c k : byte) : Byte.eqb c k = (u8 c =? u8 k).
Proof.
  destruct (Byte.eqb c k) eqn:E.
  - apply Byte.byte_dec_bl in E. subst. symmetry. apply Z.eqb_refl.
  - symmetry. apply Z.eqb_neq. intros H. apply u8_inj in H. subst.
    rewrite (Byte.byte_dec_lb eq_refl) in E. discriminate.
Qed.

(** [BLE_UART_InString] follows the state machine of the specification:
    it returns where that machine emits a frame and waits where it does
    not, as long as no store leaves the buffer. *)
Lemma InString_loop_refines (size : Z) (input : list byte) :
  15 <= size ->
  forall (buffer : list byte) (ptr length state : Z) (part : list byte),
    assembling state length part ->
    match InString_loop size input buffer ptr length state with
    | Returned n _ rest =>
        n = 15 /\ exists frame,
          spec_assemble (scan_of_state state) part input = Some (frame, rest)
    | Blocked => spec_assemble (scan_of_state state) part input = None
    | Overflow => True
    end.
Proof.
  intros Hsize.
  induction input as [|c input IH]; intros buffer ptr length state part Hinv.
  - rewrite InString_loop_nil.
    replace (length <? size) with true
      by (symmetry; apply Z.ltb_lt; destruct Hinv; lia).
    reflexivity.
  - simpl InString_loop.
    replace (length <? size) with true
      by (symmetry; apply Z.ltb_lt; destruct Hinv; lia).
    destruct Hinv as [| |got Hgot]; simpl.
    + rewrite (eqb_u8 c Byte.x21). change (u8 Byte.x21) with 33.
      destruct (u8 c =? 33) eqn:E.
      * apply (u8_eqb_marker c Byte.x21) in E. subst c.
        destruct (store buffer ptr Byte.x21); [|exact I].
        exact (IH _ _ _ _ _ assembling_matched).
      * rewrite Z.sub_0_r. exact (IH _ _ _ _ _ assembling_idle).
    + rewrite (eqb_u8 c Byte.x47). change (u8 Byte.x47) with 71.
      destruct (u8 c =? 71) eqn:E.
      * apply (u8_eqb_marker c Byte.x47) in E. subst c.
        destruct (store buffer ptr Byte.x47); [|exact I].
        assert (A : assembling 2 (1 + 1) [Byte.x21; Byte.x47])
          by (apply (assembling_collecting []); simpl; lia).
        exact (IH _ _ _ _ _ A).
      * rewrite Z.sub_0_r. exact (IH _ _ _ _ _ assembling_idle).
    + destruct (store buffer ptr c); [|exact I].
      rewrite length_app. simpl List.length.
      destruct (2 + Z.of_nat (List.length got) + 1 =? 15) eqn:E.
      * apply Z.eqb_eq in E.
        replace (List.length got + 1 =? 13)%nat with true
          by (symmetry; apply Nat.eqb_eq; lia).
        split; [exact E|]. eexists. reflexivity.
      * apply Z.eqb_neq in E.
        replace (List.length got + 1 =? 13)%nat with false
          by (symmetry; apply Nat.eqb_neq; lia).
        replace (2 + Z.of_nat (List.length got) + 1)
          with (2 + Z.of_nat (List.length (got ++ [c])))
          by (rewrite length_app; simpl; lia).
        assert (A : assembling 2 (2 + Z.of_nat (List.length (got ++ [c])))
                      (Byte.x21 :: Byte.x47 :: got ++ [c]))
          by (apply assembling_collecting; rewrite length_app; simpl; lia).
        exact (IH _ _ _ _ _ A).
Qed.

Lemma spec_assemble_rest (input : list byte) :
  forall st part frame rest,
    spec_assemble st part input = Some (frame, rest) ->
    (List.length rest < List.length input)%nat.
Proof.
  induction input as [|c input IH]; intros st part frame rest H;
    [discriminate|].
  simpl in H. destruct st.
  - destruct (Byte.eqb c Byte.x21); apply IH in H; simpl; lia.
  - destruct (Byte.eqb c Byte.x47); apply IH in H; simpl; lia.
  - destruct (List.length (part ++ [c]) =? 15)%nat.
    + injection H as _ <-. simpl. lia.
    + apply IH in H. simpl. lia.
Qed.

(** Where the machine of the specification emits a frame the call
    returns, provided the bytes read up to there fit behind
    [buffer_pointer]. *)
Lemma InString_loop_live (size : Z) (input : list byte) :
  15 <= size ->
  forall (buffer : list byte) (ptr length state : Z) (part frame rest : list byte),
    assembling state length part ->
    spec_assemble (scan_of_state state) part input = Some (frame, rest) ->
    0 <= ptr ->
    ptr + Z.of_nat (List.length input) - Z.of_nat (List.length rest)
    <= Z.of_nat (List.length buffer) ->
    exists buffer',
      InString_loop size input buffer ptr length state
      = Returned 15 buffer' rest.
Proof.
  intros Hsize buffer ptr length state part frame rest Hinv Hspec Hptr Hfit.
  pose proof (spec_assemble_rest _ _ _ _ _ Hspec) as Hrest.
  pose proof (InString_loop_refines size input Hsize buffer ptr length state
                part Hinv) as R.
  destruct (InString_loop size input buffer ptr length state)
    as [n buffer' rest'| |] eqn:E.
  - destruct R as (-> & frame' & R). rewrite Hspec in R.
    injection R as _ <-. eauto.
  - congruence.
  - exfalso. clear R.
    revert buffer ptr length state part Hinv Hspec Hptr Hfit Hrest E.
    induction input as [|c input IH];
      intros buffer ptr length state part Hinv Hspec Hptr Hfit Hrest E;
      [discriminate|].
    simpl List.length in *. simpl InString_loop in E.
    assert (Hstore : forall k, store buffer ptr k
                               = Some (<[Z.to_nat ptr := k]> buffer)).
    { intros k. rewrite <- (Z2Nat.id ptr) at 1 by lia.
      apply store_in_range. lia. }
    replace (length <? size) with true in E
      by (symmetry; apply Z.ltb_lt; destruct Hinv; lia).
    rewrite !Hstore in E.
    destruct Hinv as [| |got Hgot]; simpl in E, Hspec.
    + rewrite (eqb_u8 c Byte.x21) in Hspec.
      change (u8 Byte.x21) with 33 in Hspec.
      destruct (u8 c =? 33) eqn:Ec.
      * apply (u8_eqb_marker c Byte.x21) in Ec. subst c.
        pose proof (spec_assemble_rest _ _ _ _ _ Hspec).
        refine (IH _ _ _ _ _ assembling_matched Hspec _ _ _ E);
          rewrite ?length_insert; lia.
      * pose proof (spec_assemble_rest _ _ _ _ _ Hspec).
        rewrite Z.sub_0_r in E.
        refine (IH _ _ _ _ _ assembling_idle Hspec _ _ _ E); lia.
    + rewrite (eqb_u8 c Byte.x47) in Hspec.
      change (u8 Byte.x47) with 71 in Hspec.
      destruct (u8 c =? 71) eqn:Ec.
      * apply (u8_eqb_marker c Byte.x47) in Ec. subst c.
        pose proof (spec_assemble_rest _ _ _ _ _ Hspec).
        assert (A : assembling 2 (1 + 1) [Byte.x21; Byte.x47])
          by (apply (assembling_collecting []); simpl; lia).
        refine (IH _ _ _ _ _ A Hspec _ _ _ E);
          rewrite ?length_insert; lia.
      * pose proof (spec_assemble_rest _ _ _ _ _ Hspec).
        rewrite Z.sub_0_r in E.
        refine (IH _ _ _ _ _ assembling_idle Hspec _ _ _ E); lia.
    + rewrite length_app in Hspec. simpl List.length in Hspec.
      destruct (2 + Z.of_nat (List.length got) + 1 =? 15) eqn:E15;
        [discriminate|].
      apply Z.eqb_neq in E15.
      replace (List.length got + 1 =? 13)%nat with false in Hspec
        by (symmetry; apply Nat.eqb_neq; lia).
      pose proof (spec_assemble_rest _ _ _ _ _ Hspec).
      assert (A : assembling 2 (2 + Z.of_nat (List.length (got ++ [c])))
                    (Byte.x21 :: Byte.x47 :: got ++ [c]))
        by (apply assembling_collecting; rewrite length_app; simpl; lia).
      replace (2 + Z.of_nat (List.length got) + 1)
        with (2 + Z.of_nat (List.length (got ++ [c]))) in E
        by (rewrite length_app; simpl; lia).
      refine (IH _ _ _ _ _ A Hspec _ _ _ E);
        rewrite ?length_insert; lia.
Qed.

End Assembler.

(** ** The payload decoder *)

Section Decoder.

Lemma bits_of_field (w k n : Z) :
  0 <= k -> 0 <= n ->
  Z.testbit (Z.shiftl (to_u8 (Z.shiftr w k)) k) n
  = if (k <=? n) && (n <? k + 8) then Z.testbit w n else false.
Proof.
  intros Hk Hn. unfold to_u8. change 256 with (2 ^ 8).
  rewrite Z.shiftl_spec by lia.
  destruct (Z.leb_spec k n); simpl.
  - destruct (Z.ltb_spec n (k + 8)).
    + rewrite Z.mod_pow2_bits_low by lia.
      rewrite Z.shiftr_spec by lia. f_equal. lia.
    + apply Z.mod_pow2_bits_high. lia.
  - apply Z.testbit_neg_r. lia.
Qed.

Ltac field_cases n :=
  destruct (Z.leb_spec 0 n), (Z.ltb_spec n (0 + 8)), (Z.leb_spec 8 n),
    (Z.ltb_spec n (8 + 8)), (Z.leb_spec 16 n), (Z.ltb_spec n (16 + 8)),
    (Z.leb_spec 24 n), (Z.ltb_spec n (24 + 8)); simpl;
  rewrite ?orb_false_r; try reflexivity; lia.

(** Reading four bytes written least significant first gives the word
    back. *)
Lemma word_of_le32 (w : Z) :
  0 <= w < 2 ^ 32 ->
  word_of_bytes (byte_of_Z w) (byte_of_Z (Z.shiftr w 8))
    (byte_of_Z (Z.shiftr w 16)) (byte_of_Z (Z.shiftr w 24)) = w.
Proof.
  intros Hw. unfold word_of_bytes. rewrite !u8_byte_of_Z.
  rewrite <- (Z.shiftl_0_r (to_u8 w)).
  rewrite <- (Z.shiftr_0_r w) at 1.
  apply Z.bits_inj'. intros n Hn.
  rewrite !Z.lor_spec, !bits_of_field by lia.
  destruct (Z.ltb_spec n 32) as [Hlt|Hge].
  - field_cases n.
  - rewrite <- (Z.mod_small w (2 ^ 32)) at 5 by lia.
    rewrite (Z.mod_pow2_bits_high w 32 n) by lia.
    field_cases n.
Qed.

(** The three fields of a word put together from a sign, a biased
    exponent and a fraction. *)
Lemma fields_of_word (s : bool) (E M : Z) :
  0 <= E < 256 -> 0 <= M < 0x800000 ->
  let w := (if s then 0x80000000 else 0) + (E * 0x800000 + M) in
  Z.testbit w 31 = s
  /\ Z.land (Z.shiftr w 23) 0xFF = E
  /\ Z.land w 0x7FFFFF = M.
Proof.
  intros HE HM w.
  assert (Hw : 0 <= w < 2 ^ 32) by (subst w; destruct s; lia).
  split; [|split].
  - rewrite Z.testbit_eqb by lia. change (2 ^ 31) with 0x80000000.
    subst w. destruct s.
    + replace ((0x80000000 + (E * 0x800000 + M)) / 0x80000000) with 1
        by (apply Z.div_unique with (r := E * 0x800000 + M); lia).
      reflexivity.
    + replace ((0 + (E * 0x800000 + M)) / 0x80000000) with 0
        by (apply Z.div_unique with (r := E * 0x800000 + M); lia).
      reflexivity.
  - change 0xFF with (Z.ones 8).
    rewrite Z.land_ones, Z.shiftr_div_pow2 by lia.
    change (2 ^ 23) with 0x800000. change (2 ^ 8) with 256.
    subst w.
    replace (((if s then 0x80000000 else 0) + (E * 0x800000 + M)) / 0x800000)
      with ((if s then 256 else 0) + E)
      by (apply Z.div_unique with (r := M); destruct s; lia).
    symmetry. apply Z.mod_unique with (q := if s then 1 else 0);
      destruct s; lia.
  - change 0x7FFFFF with (Z.ones 23). rewrite Z.land_ones by lia.
    change (2 ^ 23) with 0x800000. subst w. symmetry.
    apply Z.mod_unique with (q := (if s then 256 else 0) + E);
      destruct s; lia.
Qed.

Lemma bits_of_b32_range (f : float32) :
  is_binary32 f = true -> 0 <= bits_of_b32 f < 2 ^ 32.
Proof.
  destruct f as [s|s| |s m e]; intros Hf;
    try (destruct s; simpl; lia); [simpl; lia|].
  assert (Hf' : Z.pos m < 0x800000 /\ e = -149
                \/ 0x800000 <= Z.pos m < 0x1000000 /\ -149 <= e <= 104).
  { unfold is_binary32 in Hf.
    rewrite orb_true_iff, !andb_true_iff, !Z.ltb_lt, !Z.leb_le, Z.eqb_eq
      in Hf. lia. }
  unfold bits_of_b32.
  destruct (Z.ltb_spec (Z.pos m) 0x800000); destruct s; lia.
Qed.

(** Decoding the bit pattern of a binary32 number gives the number. *)
Lemma b32_of_bits_of_b32 (f : float32) :
  is_binary32 f = true -> b32_of_bits (bits_of_b32 f) = f.
Proof.
  destruct f as [s|s| |s m e]; intros Hf.
  - destruct s; reflexivity.
  - destruct s; reflexivity.
  - reflexivity.
  - assert (Hf' : Z.pos m < 0x800000 /\ e = -149
                  \/ 0x800000 <= Z.pos m < 0x1000000 /\ -149 <= e <= 104).
    { unfold is_binary32 in Hf.
      rewrite orb_true_iff, !andb_true_iff, !Z.ltb_lt, !Z.leb_le, Z.eqb_eq
        in Hf. lia. }
    clear Hf. unfold bits_of_b32.
    destruct (Z.ltb_spec (Z.pos m) 0x800000) as [Hsub|Hnorm].
    + assert (e = -149) by lia. subst e.
      destruct (fields_of_word s 0 (Z.pos m)) as (Hs & HE & HM); [lia..|].
      cbv zeta in Hs, HE, HM. rewrite Z.mul_0_l, Z.add_0_l in Hs, HE, HM.
      unfold b32_of_bits. rewrite Hs, HE, HM. reflexivity.
    + destruct (fields_of_word s (e + 150) (Z.pos m - 0x800000))
        as (Hs & HE & HM); [lia..|].
      cbv zeta in Hs, HE, HM. unfold b32_of_bits. rewrite Hs, HE, HM.
      replace (e + 150 =? 255) with false by (symmetry; apply Z.eqb_neq; lia).
      replace (e + 150 =? 0) with false by (symmetry; apply Z.eqb_neq; lia).
      f_equal; [|lia].
      replace (Z.pos m - 0x800000 + 0x800000) with (Z.pos m) by lia.
      reflexivity.
Qed.

Lemma ExtractFloat_le32 (pre post : list byte) (w : Z) :
  0 <= w < 2 ^ 32 ->
  ExtractFloat (pre ++ le32 w ++ post) (List.length pre)
  = Some (b32_of_bits w).
Proof.
  intros Hw.
  assert (L : forall k b, (le32 w ++ post) !! k = Some b ->
             (pre ++ le32 w ++ post) !! (List.length pre + k)%nat = Some b).
  { intros k b Hk. rewrite lookup_app_r by lia. rewrite <- Hk. f_equal. lia. }
  pose proof (L 0%nat _ eq_refl) as L0. rewrite Nat.add_0_r in L0.
  cbv [ExtractFloat mbind option_bind].
  rewrite L0, (L 1%nat _ eq_refl), (L 2%nat _ eq_refl), (L 3%nat _ eq_refl).
  rewrite word_of_le32 by exact Hw. reflexivity.
Qed.

(** C7. [ExtractFloat] at the offsets 2, 6 and 10 reads four bytes each
    and takes them as a binary32 number stored least significant byte
    first: from a frame that holds the little-endian encodings of [x],
    [y] and [z] it returns [x], [y] and [z]. In particular 1.5, -2.25 and
    0.0 come back as exactly 1.5, -2.25 and 0.0. *)
Theorem ExtractFloat_round_trip (x y z : float32) (c : byte) :
  is_binary32 x = true -> is_binary32 y = true -> is_binary32 z = true ->
  (let frame :=
     Byte.x21 :: Byte.x47 :: encode_f32 x ++ encode_f32 y ++ encode_f32 z
     ++ [c] in
   List.length frame = 15%nat
   /\ ExtractFloat frame 2 = Some x
   /\ ExtractFloat frame 6 = Some y
   /\ ExtractFloat frame 10 = Some z)
  /\ (let frame := frame_of f_1_5 f_m2_25 f_zero in
      ValidateBLEPacket frame = Some true
      /\ ExtractFloat frame 2 = Some f_1_5
      /\ ExtractFloat frame 6 = Some f_m2_25
      /\ ExtractFloat frame 10 = Some f_zero
      /\ (Fp.value f_1_5 == 3 # 2)%Q
      /\ (Fp.value f_m2_25 == - (9 # 4))%Q
      /\ f_zero = S754_zero false).
Proof.
  intros Hx Hy Hz. split.
  - intros frame. split; [reflexivity|].
    pose proof (bits_of_b32_range x Hx) as Rx.
    pose proof (bits_of_b32_range y Hy) as Ry.
    pose proof (bits_of_b32_range z Hz) as Rz.
    subst frame. unfold encode_f32. split; [|split].
    + etransitivity;
        [exact (ExtractFloat_le32 [Byte.x21; Byte.x47] _ _ Rx)|].
      f_equal. apply b32_of_bits_of_b32, Hx.
    + etransitivity;
        [exact (ExtractFloat_le32
                  (Byte.x21 :: Byte.x47 :: le32 (bits_of_b32 x)) _ _ Ry)|].
      f_equal. apply b32_of_bits_of_b32, Hy.
    + rewrite (app_assoc (le32 (bits_of_b32 x))).
      etransitivity;
        [exact (ExtractFloat_le32
                  (Byte.x21 :: Byte.x47
                   :: le32 (bits_of_b32 x) ++ le32 (bits_of_b32 y)) _ _ Rz)|].
      f_equal. apply b32_of_bits_of_b32, Hz.
  - vm_compute. repeat split; congruence.
Qed.

Lemma ExtractFloat_round_trip_witness :
  let frame :=
    Byte.x21 :: Byte.x47
    :: encode_f32 f_1_5 ++ encode_f32 f_m2_25 ++ encode_f32 f_zero
    ++ [Byte.x00] in
  List.length frame = 15%nat
  /\ ExtractFloat frame 2 = Some f_1_5
  /\ ExtractFloat frame 6 = Some f_m2_25
  /\ ExtractFloat frame 10 = Some f_zero.
Proof.
  apply (proj1 (ExtractFloat_round_trip f_1_5 f_m2_25 f_zero Byte.x00
                  eq_refl eq_refl eq_refl)).
Defined.

End Decoder.

(** ** The main loop *)

Section Pipeline.

Lemma ExtractFloat_is_Some (buffer : list byte) (offset : nat) :
  (offset + 4 <= List.length buffer)%nat ->
  is_Some (ExtractFloat buffer offset).
Proof.
  intros Hlen. unfold ExtractFloat.
  destruct (lookup_lt_is_Some_2 buffer offset ltac:(lia)) as [b0 ->].
  destruct (lookup_lt_is_Some_2 buffer (offset + 1) ltac:(lia)) as [b1 ->].
  destruct (lookup_lt_is_Some_2 buffer (offset + 2) ltac:(lia)) as [b2 ->].
  destruct (lookup_lt_is_Some_2 buffer (offset + 3) ltac:(lia)) as [b3 ->].
  simpl. eauto.
Qed.

Lemma ParseBLEPacket_is_Some (buffer : list byte) :
  (15 <= List.length buffer)%nat -> is_Some (ParseBLEPacket buffer).
Proof.
  intros Hlen. unfold ParseBLEPacket.
  destruct (lookup_lt_is_Some_2 buffer 0 ltac:(lia)) as [b0 H0].
  destruct (lookup_lt_is_Some_2 buffer 1 ltac:(lia)) as [b1 H1].
  destruct (lookup_lt_is_Some_2 buffer 14 ltac:(lia)) as [c H14].
  rewrite (ValidateBLEPacket_spec buffer b0 b1 c H0 H1 H14). simpl.
  destruct (negb _); [eauto|].
  destruct (ExtractFloat_is_Some buffer 2 ltac:(lia)) as [x ->].
  destruct (ExtractFloat_is_Some buffer 6 ltac:(lia)) as [y ->].
  destruct (ExtractFloat_is_Some buffer 10 ltac:(lia)) as [z ->].
  simpl. eauto.
Qed.

(** Whatever [ParseBLEPacket] finds, [main] goes on to decode the buffer
    and to call the mapper: the motor calls of a turn of the loop are
    those of the three numbers held by the frame. *)
Lemma main_iteration_ignores_validation (body rest buffer : list byte) :
  List.length body = 13%nat ->
  List.length buffer = 128%nat ->
  let frame := Byte.x21 :: Byte.x47 :: body in
  exists x y z,
    ExtractFloat frame 2 = Some x /\ ExtractFloat frame 6 = Some y
    /\ ExtractFloat frame 10 = Some z
    /\ main_iteration buffer (frame ++ rest)
       = Iterated (MotorControlFromGyro x y z) (frame ++ drop 15 buffer) rest.
Proof.
  intros Hbody Hbuf frame.
  assert (Hframe : List.length frame = 15%nat) by (simpl; lia).
  destruct (ExtractFloat_is_Some frame 2 ltac:(lia)) as [x Hx].
  destruct (ExtractFloat_is_Some frame 6 ltac:(lia)) as [y Hy].
  destruct (ExtractFloat_is_Some frame 10 ltac:(lia)) as [z Hz].
  exists x, y, z. repeat (split; [assumption|]).
  unfold main_iteration, BLE_UART_InString, BLE_UART_BUFFER_SIZE.
  subst frame. simpl app. change 0 with (Z.of_nat 0) at 1.
  rewrite collect_frame by lia.
  rewrite take_0. simpl app. simpl (0 <? 15).
  set (frame := Byte.x21 :: Byte.x47 :: body) in *.
  change (Byte.x21 :: Byte.x47 :: body ++ drop 15 buffer)
    with (frame ++ drop 15 buffer).
  destruct (ParseBLEPacket_is_Some (frame ++ drop 15 buffer)) as [log ->].
  { rewrite length_app. lia. }
  assert (Hext : forall k, (k + 4 <= 15)%nat ->
             ExtractFloat (frame ++ drop 15 buffer) k = ExtractFloat frame k).
  { intros k Hk. unfold ExtractFloat. rewrite !lookup_app_l by lia.
    reflexivity. }
  rewrite !Hext by lia. rewrite Hx, Hy, Hz. reflexivity.
Qed.

(** C1 fails on the code: [main] calls the decoder and the mapper after
    [ParseBLEPacket] whether or not the frame was valid. The frame
    [frame_corrupt] has a wrong checksum, [ParseBLEPacket] reports it as
    invalid, and the forward call is made all the same. *)
Theorem invalid_frame_reaches_mapper :
  List.length frame_corrupt = 15%nat
  /\ ValidateBLEPacket frame_corrupt = Some false
  /\ ParseBLEPacket (frame_corrupt ++ drop 15 initial_buffer)
     = Some Invalid_BLE_Packet
  /\ main_iteration initial_buffer frame_corrupt
     = Iterated [Motor_Forward 3000 3000]
         (frame_corrupt ++ drop 15 initial_buffer) [].
Proof. repeat split; vm_compute; reflexivity. Qed.

(** The other receive path, [BLE_UART_HandleRxData], does stop at the
    checksum: the same frame is not handed to [ParseBLEPacket]. *)
Lemma HandleRxData_gates_on_checksum :
  BLE_UART_HandleRxData frame_corrupt 15 = Some Error_CRC_failed.
Proof. vm_compute. reflexivity. Qed.

End Pipeline.

(** * Further properties *)

(** ** Error detection and bounds of the validators *)

Section ErrorDetection.

Lemma byte_sum_app (l k : list byte) : byte_sum (l ++ k) = byte_sum l + byte_sum k.
Proof.
  induction l as [|b l IH]; simpl; [reflexivity|].
  unfold byte_sum in *. simpl. rewrite IH. lia.
Qed.

Lemma byte_sum_insert (l : list byte) (i : nat) (b b' : byte) :
  l !! i = Some b ->
  byte_sum (<[i := b']> l) = byte_sum l - u8 b + u8 b'.
Proof.
  revert i. induction l as [|a l IH]; intros [|i] H; try discriminate.
  - injection H as ->. unfold byte_sum. simpl. lia.
  - simpl in H. apply IH in H. unfold byte_sum in *. simpl.
    rewrite H. lia.
Qed.

Lemma byte_sum_Permutation (l k : list byte) :
  l ≡ₚ k -> byte_sum l = byte_sum k.
Proof.
  induction 1; unfold byte_sum in *; simpl; lia.
Qed.

Lemma checksum_shift (l k : list byte) :
  checksum l = checksum k <-> (byte_sum l - byte_sum k) mod 256 = 0.
Proof.
  unfold checksum.
  pose proof (Z.mod_pos_bound (byte_sum l) 256 ltac:(lia)).
  pose proof (Z.mod_pos_bound (byte_sum k) 256 ltac:(lia)).
  rewrite !complement8_eq by lia.
  split; intros E.
  - rewrite Zminus_mod. replace (byte_sum l mod 256) with (byte_sum k mod 256) by lia.
    rewrite Z.sub_diag. reflexivity.
  - rewrite Zminus_mod in E.
    assert (byte_sum l mod 256 = byte_sum k mod 256); [|lia].
    apply Z.mod_divide in E; [|lia]. destruct E as [q E].
    assert (q = 0) by lia. lia.
Qed.

(** X1. A frame that passes the checksum test fails it as soon as one of its
    15 bytes is changed. *)
Theorem single_byte_error_detected (frame : list byte) (i : nat) (b b' : byte) :
  ValidateCRC frame = Some true ->
  (i < 15)%nat ->
  frame !! i = Some b ->
  b' <> b ->
  ValidateCRC (<[i := b']> frame) = Some false
  /\ checkCRC (<[i := b']> frame) = Some false
  /\ (ValidateBLEPacket frame = Some true ->
      ValidateBLEPacket (<[i := b']> frame) = Some false).
Proof.
  intros Hvalid Hi Hb Hne.
  assert (Hlen : (15 <= List.length frame)%nat).
  { unfold ValidateCRC in Hvalid.
    destruct (sum_loop frame 0 14 0); [|discriminate]. simpl in Hvalid.
    destruct (frame !! 14%nat) eqn:E; [|discriminate].
    apply lookup_lt_Some in E. lia. }
  destruct (lookup_lt_is_Some_2 frame 14 ltac:(lia)) as [c Hc].
  rewrite (ValidateCRC_spec frame c Hc) in Hvalid.
  injection Hvalid as Hsum. apply Z.eqb_eq in Hsum.
  assert (Hu : u8 b' <> u8 b) by (intros E; apply u8_inj in E; contradiction).
  pose proof (u8_range b). pose proof (u8_range b').
  assert (Hcrc : ValidateCRC (<[i := b']> frame) = Some false).
  { destruct (decide (i = 14%nat)) as [->|Hi14].
    - rewrite (ValidateCRC_spec _ b') by (apply list_lookup_insert_eq; lia).
      rewrite take_insert_ge by lia. f_equal. apply Z.eqb_neq.
      rewrite Hsum. intros E. assert (b = c) by congruence. subst. lia.
    - rewrite (ValidateCRC_spec _ c)
        by (rewrite list_lookup_insert_ne by lia; exact Hc).
      f_equal. apply Z.eqb_neq. rewrite <- Hsum. intros E.
      apply checksum_shift in E.
      rewrite take_insert_lt in E by lia.
      rewrite (byte_sum_insert _ i b b') in E
        by (rewrite lookup_take_lt by lia; exact Hb).
      replace (byte_sum (take 14 frame) - u8 b + u8 b' - byte_sum (take 14 frame))
        with (u8 b' - u8 b) in E by lia.
      apply Z.mod_divide in E; [|lia]. destruct E as [q E].
      assert (q = 0) by lia. lia. }
  split; [exact Hcrc|]. split; [rewrite checkCRC_eq; exact Hcrc|].
  intros _. unfold ValidateBLEPacket. rewrite Hcrc.
  destruct (<[i:=b']> frame !! 0%nat) as [a0|] eqn:E0.
  2: { apply lookup_ge_None in E0. rewrite length_insert in E0. lia. }
  simpl. destruct (negb (u8 a0 =? 33)); [reflexivity|].
  destruct (<[i:=b']> frame !! 1%nat) as [a1|] eqn:E1.
  2: { apply lookup_ge_None in E1. rewrite length_insert in E1. lia. }
  simpl. destruct (negb (u8 a1 =? 71)); reflexivity.
Qed.

Lemma single_byte_error_detected_witness :
  ValidateCRC (<[9%nat := Byte.x3e]> frame_forward) = Some false
  /\ checkCRC (<[9%nat := Byte.x3e]> frame_forward) = Some false
  /\ (ValidateBLEPacket frame_forward = Some true ->
      ValidateBLEPacket (<[9%nat := Byte.x3e]> frame_forward) = Some false).
Proof.
  apply (single_byte_error_detected frame_forward 9 Byte.x3f Byte.x3e).
  - vm_compute. reflexivity.
  - lia.
  - reflexivity.
  - discriminate.
Defined.

(** X2. The checksum is a sum: it does not see in which order the bytes in
    front of it come. *)
Theorem checksum_blind_to_order (b0 b1 c : byte) (p p' q q' tail : list byte) :
  p ≡ₚ p' -> List.length p = 14%nat ->
  q ≡ₚ q' -> List.length q = 12%nat ->
  ValidateCRC (p ++ c :: tail) = ValidateCRC (p' ++ c :: tail)
  /\ checkCRC (p ++ c :: tail) = checkCRC (p' ++ c :: tail)
  /\ ValidateBLEPacket (b0 :: b1 :: q ++ c :: tail)
     = ValidateBLEPacket (b0 :: b1 :: q' ++ c :: tail).
Proof.
  assert (Hcrc : forall r r' : list byte,
             r ≡ₚ r' -> List.length r = 14%nat ->
             ValidateCRC (r ++ c :: tail) = ValidateCRC (r' ++ c :: tail)).
  { intros r r' Hperm Hlen.
    assert (Hlen' : List.length r' = 14%nat)
      by (rewrite <- Hlen; symmetry; apply Permutation_length, Hperm).
    rewrite (ValidateCRC_spec (r ++ c :: tail) c)
      by (rewrite lookup_app_r, Hlen by lia; reflexivity).
    rewrite (ValidateCRC_spec (r' ++ c :: tail) c)
      by (rewrite lookup_app_r, Hlen' by lia; reflexivity).
    rewrite !take_app_length' by lia.
    unfold checksum. rewrite (byte_sum_Permutation r r' Hperm). reflexivity. }
  intros Hp Hlp Hq Hlq.
  split; [auto|]. split; [rewrite !checkCRC_eq; auto|].
  assert (E : ValidateCRC (b0 :: b1 :: q ++ c :: tail)
              = ValidateCRC (b0 :: b1 :: q' ++ c :: tail)).
  { apply (Hcrc (b0 :: b1 :: q) (b0 :: b1 :: q'));
      [by do 2 constructor | simpl; lia]. }
  unfold ValidateBLEPacket. rewrite E. reflexivity.
Qed.

Lemma checksum_blind_to_order_witness :
  let q := replicate 4 Byte.x00 ++ [Byte.x00; Byte.x00; Byte.x00; Byte.x3f;
                                    Byte.x00; Byte.x00; Byte.x00; Byte.x00] in
  let q' := [Byte.x00; Byte.x00; Byte.x00; Byte.x3f;
             Byte.x00; Byte.x00; Byte.x00; Byte.x00] ++ replicate 4 Byte.x00 in
  ValidateCRC ((Byte.x21 :: Byte.x47 :: q) ++ Byte.x58 :: [])
  = ValidateCRC ((Byte.x21 :: Byte.x47 :: q') ++ Byte.x58 :: [])
  /\ checkCRC ((Byte.x21 :: Byte.x47 :: q) ++ Byte.x58 :: [])
     = checkCRC ((Byte.x21 :: Byte.x47 :: q') ++ Byte.x58 :: [])
  /\ ValidateBLEPacket (Byte.x21 :: Byte.x47 :: q ++ Byte.x58 :: [])
     = ValidateBLEPacket (Byte.x21 :: Byte.x47 :: q' ++ Byte.x58 :: []).
Proof.
  intros q q'.
  apply (checksum_blind_to_order Byte.x21 Byte.x47 Byte.x58
           (Byte.x21 :: Byte.x47 :: q) (Byte.x21 :: Byte.x47 :: q') q q' []).
  - do 2 constructor. apply Permutation_app_comm.
  - reflexivity.
  - apply Permutation_app_comm.
  - reflexivity.
Defined.

Lemma sum_loop_None (buffer : list byte) (n i : nat) (sum : Z) :
  (0 < n)%nat -> (List.length buffer < i + n)%nat ->
  sum_loop buffer i n sum = None.
Proof.
  revert i sum. induction n as [|n IH]; intros i sum Hn Hlen; [lia|].
  simpl. destruct (buffer !! i) as [c|] eqn:E; [|reflexivity].
  simpl. apply lookup_lt_Some in E. apply IH; lia.
Qed.

(** X3. Which buffers the validators read beyond their end. [ValidateCRC]
    reads 15 bytes whatever they are. [ValidateBLEPacket] stops at the
    first marker byte that is wrong, so that it reads beyond the end only
    of a buffer of fewer than 15 bytes that starts like the marker. *)
Theorem validation_bounds (buffer : list byte) :
  (ValidateCRC buffer = None <-> (List.length buffer < 15)%nat)
  /\ (checkCRC buffer = None <-> (List.length buffer < 15)%nat)
  /\ (ValidateBLEPacket buffer = None <->
      (List.length buffer < 15)%nat
      /\ take 2 buffer `prefix_of` [Byte.x21; Byte.x47]).
Proof.
  assert (Hcrc : ValidateCRC buffer = None <-> (List.length buffer < 15)%nat).
  { split.
    - intros E. destruct (decide (List.length buffer < 15)%nat); [assumption|].
      destruct (lookup_lt_is_Some_2 buffer 14 ltac:(lia)) as [c Hc].
      rewrite (ValidateCRC_spec buffer c Hc) in E. discriminate.
    - intros Hlen. unfold ValidateCRC.
      destruct (decide (List.length buffer < 14)%nat).
      + rewrite sum_loop_None by lia. reflexivity.
      + rewrite sum_loop_spec by lia. simpl.
        rewrite (lookup_ge_None_2 buffer 14) by lia. reflexivity. }
  split; [exact Hcrc|]. split; [rewrite checkCRC_eq; exact Hcrc|].
  unfold ValidateBLEPacket.
  destruct buffer as [|b0 [|b1 rest]]; simpl.
  - split; [intros _; split; [lia | by exists [Byte.x21; Byte.x47]] | done].
  - destruct (u8 b0 =? 33) eqn:E0; simpl.
    + apply (u8_eqb_marker b0 Byte.x21) in E0. subst b0.
      split; [intros _; split; [lia | by exists [Byte.x47]] | done].
    + split; [discriminate|]. intros [_ [k Hk]]. injection Hk as <- _.
      discriminate.
  - destruct (u8 b0 =? 33) eqn:E0; simpl.
    + apply (u8_eqb_marker b0 Byte.x21) in E0. subst b0.
      destruct (u8 b1 =? 71) eqn:E1; simpl.
      * apply (u8_eqb_marker b1 Byte.x47) in E1. subst b1.
        rewrite Hcrc. simpl. split; [intros H; split; [exact H | by exists []] | tauto].
      * split; [discriminate|]. intros [_ [k Hk]]. injection Hk as <- _.
        discriminate.
    + split; [discriminate|]. intros [_ [k Hk]]. injection Hk as <- _.
      discriminate.
Qed.

Lemma validation_bounds_witness :
  ValidateCRC (take 14 frame_forward) = None
  /\ ValidateBLEPacket [Byte.x21] = None.
Proof.
  split.
  - apply (proj1 (validation_bounds (take 14 frame_forward))).
    simpl. lia.
  - apply (proj2 (proj2 (validation_bounds [Byte.x21]))).
    split; [simpl; lia | by exists [Byte.x47]].
Defined.

End ErrorDetection.

(** ** More on the payload decoder *)

Section DecoderMore.

(** X4. [ExtractFloat] reads the four bytes from [offset] on and nothing
    else: it is undefined exactly when they are not all inside the
    buffer, and its result is that of the four bytes alone. *)
Theorem ExtractFloat_bounds (buffer : list byte) (offset : nat) :
  (ExtractFloat buffer offset = None
   <-> (List.length buffer < offset + 4)%nat)
  /\ ExtractFloat buffer offset
     = ExtractFloat (take 4 (drop offset buffer)) 0.
Proof.
  split.
  - split.
    + intros E. destruct (decide (List.length buffer < offset + 4)%nat);
        [assumption|].
      destruct (ExtractFloat_is_Some buffer offset ltac:(lia)) as [f Hf].
      congruence.
    + intros Hlen. unfold ExtractFloat.
      destruct (buffer !! offset) as [b0|]; [|reflexivity]. simpl.
      destruct (buffer !! (offset + 1)%nat) as [b1|]; [|reflexivity]. simpl.
      destruct (buffer !! (offset + 2)%nat) as [b2|]; [|reflexivity]. simpl.
      rewrite (lookup_ge_None_2 buffer (offset + 3)) by lia. reflexivity.
  - unfold ExtractFloat.
    rewrite !lookup_take_lt, !lookup_drop by lia.
    rewrite Nat.add_0_r. reflexivity.
Qed.

Lemma ExtractFloat_bounds_witness :
  ExtractFloat (take 12 frame_forward) 10 = None.
Proof.
  apply (proj1 (ExtractFloat_bounds (take 12 frame_forward) 10)).
  simpl. lia.
Defined.

Lemma lor_shiftl_add (a b k : Z) :
  0 <= k -> 0 <= a < 2 ^ k -> 0 <= b ->
  Z.lor a (Z.shiftl b k) = a + b * 2 ^ k.
Proof.
  intros Hk Ha Hb. rewrite Z.shiftl_mul_pow2 by lia.
  rewrite <- Z.lxor_lor, <- Z.add_nocarry_lxor; try reflexivity.
  all: apply Z.bits_inj'; intros n Hn;
    rewrite Z.land_spec, Z.bits_0;
    destruct (Z.lt_ge_cases n k);
    [ rewrite Z.mul_pow2_bits_low by lia; apply andb_false_r
    | rewrite <- (Z.mod_small a (2 ^ k)) by lia;
      rewrite Z.mod_pow2_bits_high by lia; reflexivity ].
Qed.

(** The word of four bytes, the first of which counts least. *)
Lemma word_of_bytes_value (b0 b1 b2 b3 : byte) :
  word_of_bytes b0 b1 b2 b3
  = u8 b0 + 256 * u8 b1 + 65536 * u8 b2 + 16777216 * u8 b3.
Proof.
  pose proof (u8_range b0). pose proof (u8_range b1).
  pose proof (u8_range b2). pose proof (u8_range b3).
  unfold word_of_bytes.
  replace (Z.shiftl (u8 b3) 24) with (Z.shiftl (Z.shiftl (u8 b3) 8) 16)
    by (rewrite Z.shiftl_shiftl by lia; reflexivity).
  rewrite <- (Z.shiftl_lor (u8 b2) _ 16).
  replace (Z.shiftl (Z.lor (u8 b2) (Z.shiftl (u8 b3) 8)) 16)
    with (Z.shiftl (Z.shiftl (Z.lor (u8 b2) (Z.shiftl (u8 b3) 8)) 8) 8)
    by (rewrite Z.shiftl_shiftl by lia; reflexivity).
  rewrite <- (Z.shiftl_lor (u8 b1) _ 8).
  rewrite (lor_shiftl_add (u8 b2) (u8 b3) 8) by lia.
  rewrite (lor_shiftl_add (u8 b1)) by lia.
  rewrite (lor_shiftl_add (u8 b0)) by lia.
  change (2 ^ 8) with 256. lia.
Qed.

Lemma word_of_bytes_range (b0 b1 b2 b3 : byte) :
  0 <= word_of_bytes b0 b1 b2 b3 < 2 ^ 32.
Proof.
  pose proof (u8_range b0). pose proof (u8_range b1).
  pose proof (u8_range b2). pose proof (u8_range b3).
  rewrite word_of_bytes_value. change (2 ^ 32) with 4294967296. lia.
Qed.

Lemma word_of_bytes_inj (a0 a1 a2 a3 b0 b1 b2 b3 : byte) :
  word_of_bytes a0 a1 a2 a3 = word_of_bytes b0 b1 b2 b3 ->
  a0 = b0 /\ a1 = b1 /\ a2 = b2 /\ a3 = b3.
Proof.
  rewrite !word_of_bytes_value. intros E.
  pose proof (u8_range a0). pose proof (u8_range a1).
  pose proof (u8_range a2). pose proof (u8_range a3).
  pose proof (u8_range b0). pose proof (u8_range b1).
  pose proof (u8_range b2). pose proof (u8_range b3).
  repeat split; apply u8_inj; lia.
Qed.

(** The three fields of a 32-bit word. *)
Lemma word_fields (w : Z) :
  0 <= w < 2 ^ 32 ->
  let S := if Z.testbit w 31 then 0x80000000 else 0 in
  let E := Z.land (Z.shiftr w 23) 0xFF in
  let M := Z.land w 0x7FFFFF in
  w = S + (E * 0x800000 + M) /\ 0 <= E < 256 /\ 0 <= M < 0x800000.
Proof.
  intros Hw S E M. subst S E M.
  rewrite Z.testbit_eqb by lia.
  change 0xFF with (Z.ones 8). change 0x7FFFFF with (Z.ones 23).
  rewrite !Z.land_ones, Z.shiftr_div_pow2 by lia.
  change (2 ^ 31) with 0x80000000. change (2 ^ 23) with 0x800000.
  change (2 ^ 8) with 256. change (2 ^ 32) with 0x100000000 in Hw.
  destruct (Z.eqb_spec ((w / 0x80000000) mod 2) 1);
    Z.div_mod_to_equations; lia.
Qed.

Lemma field_bounds (w : Z) :
  0 <= Z.land (Z.shiftr w 23) 0xFF < 256 /\ 0 <= Z.land w 0x7FFFFF < 0x800000.
Proof.
  change 0xFF with (Z.ones 8). change 0x7FFFFF with (Z.ones 23).
  rewrite !Z.land_ones by lia. split; apply Z.mod_pos_bound; lia.
Qed.

(** Every bit pattern is a number of the binary32 format. *)
Lemma b32_of_bits_binary32 (w : Z) : is_binary32 (b32_of_bits w) = true.
Proof.
  destruct (field_bounds w) as [HE HM]. unfold b32_of_bits.
  destruct (Z.eqb_spec (Z.land (Z.shiftr w 23) 0xFF) 255).
  - destruct (_ =? 0); reflexivity.
  - destruct (Z.eqb_spec (Z.land (Z.shiftr w 23) 0xFF) 0).
    + destruct (Z.land w 0x7FFFFF) as [|p|p] eqn:Em; try reflexivity.
      simpl. replace (Z.pos p <? 8388608) with true
        by (symmetry; apply Z.ltb_lt; lia).
      reflexivity.
    + unfold is_binary32.
      rewrite Z2Pos.id by lia.
      apply orb_true_iff. right.
      rewrite !andb_true_iff, !Z.ltb_lt, !Z.leb_le. lia.
Qed.

(** The bit pattern of the number a word stands for is the word, unless
    the word is a NaN. *)
Lemma bits_of_b32_of_bits (w : Z) :
  0 <= w < 2 ^ 32 ->
  Fp.is_nan (b32_of_bits w) = false ->
  bits_of_b32 (b32_of_bits w) = w.
Proof.
  intros Hw. destruct (word_fields w Hw) as (Hsplit & HE & HM).
  cbv zeta in Hsplit. unfold b32_of_bits.
  set (s := Z.testbit w 31) in *.
  set (E := Z.land (Z.shiftr w 23) 0xFF) in *.
  set (M := Z.land w 0x7FFFFF) in *.
  destruct (Z.eqb_spec E 255) as [HE255|HE255].
  - destruct (Z.eqb_spec M 0) as [HM0|HM0]; [|discriminate].
    intros _. simpl. destruct s; lia.
  - destruct (Z.eqb_spec E 0) as [HE0|HE0].
    + destruct M as [|p|p] eqn:EM; intros _; simpl.
      * destruct s; lia.
      * replace (Z.pos p <? 8388608) with true
          by (symmetry; apply Z.ltb_lt; lia).
        destruct s; lia.
      * lia.
    + intros _. unfold bits_of_b32. rewrite Z2Pos.id by lia.
      replace (M + 8388608 <? 8388608) with false
        by (symmetry; apply Z.ltb_ge; lia).
      destruct s; lia.
Qed.

Lemma digits2_pos_bounds (m : positive) :
  2 ^ (Z.pos (digits2_pos m) - 1) <= Z.pos m < 2 ^ Z.pos (digits2_pos m).
Proof.
  induction m as [m IH|m IH|]; simpl digits2_pos.
  - rewrite Pos2Z.inj_succ.
    replace (Z.succ (Z.pos (digits2_pos m)) - 1)
      with (Z.succ (Z.pos (digits2_pos m) - 1)) by lia.
    rewrite !Z.pow_succ_r by lia. lia.
  - rewrite Pos2Z.inj_succ.
    replace (Z.succ (Z.pos (digits2_pos m)) - 1)
      with (Z.succ (Z.pos (digits2_pos m) - 1)) by lia.
    rewrite !Z.pow_succ_r by lia. lia.
  - simpl. lia.
Qed.

Lemma digits2_pos_le (m : positive) (n : Z) :
  0 <= n -> (Z.pos (digits2_pos m) <= n <-> Z.pos m < 2 ^ n).
Proof.
  intros Hn. pose proof (digits2_pos_bounds m) as [Hlo Hhi]. split.
  - intros Hd. eapply Z.lt_le_trans; [exact Hhi|].
    apply Z.pow_le_mono_r; lia.
  - intros Hm. destruct (Z.le_gt_cases (Z.pos (digits2_pos m)) n); [assumption|].
    assert (2 ^ n <= 2 ^ (Z.pos (digits2_pos m) - 1))
      by (apply Z.pow_le_mono_r; lia).
    lia.
Qed.

(** [is_binary32] is the validity of the Standard Library for the format
    with 24 bits of precision and exponents up to 128. *)
Lemma is_binary32_valid (f : float32) :
  is_binary32 f = valid_binary 24 128 f.
Proof.
  destruct f as [s|s| |s m e]; try reflexivity.
  unfold is_binary32, valid_binary, bounded, canonical_mantissa, fexp, emin.
  pose proof (digits2_pos_le m 23 ltac:(lia)) as H23.
  pose proof (digits2_pos_le m 24 ltac:(lia)) as H24.
  change (2 ^ 23) with 0x800000 in H23. change (2 ^ 24) with 0x1000000 in H24.
  apply eq_true_iff_eq.
  rewrite orb_true_iff, !andb_true_iff, !Z.ltb_lt, !Z.leb_le, !Z.eqb_eq.
  lia.
Qed.

(** What [ExtractFloat] returns is always a number of the binary32
    format. *)
Lemma ExtractFloat_valid (buffer : list byte) (offset : nat) (f : float32) :
  ExtractFloat buffer offset = Some f ->
  valid_binary 24 128 f = true.
Proof.
  intros E. rewrite <- is_binary32_valid. unfold ExtractFloat in E.
  destruct (buffer !! offset); [|discriminate]. simpl in E.
  destruct (buffer !! (offset + 1)%nat); [|discriminate]. simpl in E.
  destruct (buffer !! (offset + 2)%nat); [|discriminate]. simpl in E.
  destruct (buffer !! (offset + 3)%nat); [|discriminate]. simpl in E.
  injection E as <-. apply b32_of_bits_binary32.
Qed.

Lemma ExtractFloat_valid_witness : valid_binary 24 128 f_half = true.
Proof.
  apply (ExtractFloat_valid frame_forward 6 f_half). reflexivity.
Defined.

Lemma ExtractFloat_Some (buffer : list byte) (offset : nat) (f : float32) :
  ExtractFloat buffer offset = Some f ->
  exists b0 b1 b2 b3,
    take 4 (drop offset buffer) = [b0; b1; b2; b3]
    /\ f = b32_of_bits (word_of_bytes b0 b1 b2 b3).
Proof.
  intros E. unfold ExtractFloat in E.
  destruct (buffer !! offset) as [b0|] eqn:E0; [|discriminate]. simpl in E.
  destruct (buffer !! (offset + 1)%nat) as [b1|] eqn:E1; [|discriminate].
  simpl in E.
  destruct (buffer !! (offset + 2)%nat) as [b2|] eqn:E2; [|discriminate].
  simpl in E.
  destruct (buffer !! (offset + 3)%nat) as [b3|] eqn:E3; [|discriminate].
  simpl in E. injection E as <-.
  exists b0, b1, b2, b3. split; [|reflexivity].
  rewrite <- (Nat.add_0_r offset) in E0.
  rewrite <- lookup_drop in E0, E1, E2, E3.
  destruct (drop offset buffer) as [|a0 [|a1 [|a2 [|a3 rest]]]];
    try discriminate.
  simpl in *. rewrite take_0. congruence.
Qed.

Lemma ExtractFloat_same_bytes (buffer1 buffer2 : list byte)
    (offset1 offset2 : nat) (f : float32) :
  ExtractFloat buffer1 offset1 = Some f ->
  ExtractFloat buffer2 offset2 = Some f ->
  Fp.is_nan f = false ->
  take 4 (drop offset1 buffer1) = take 4 (drop offset2 buffer2).
Proof.
  intros E1 E2 Hnan.
  destruct (ExtractFloat_Some _ _ _ E1) as (a0 & a1 & a2 & a3 & -> & Ha).
  destruct (ExtractFloat_Some _ _ _ E2) as (b0 & b1 & b2 & b3 & -> & Hb).
  assert (W : word_of_bytes a0 a1 a2 a3 = word_of_bytes b0 b1 b2 b3).
  { rewrite <- (bits_of_b32_of_bits (word_of_bytes a0 a1 a2 a3))
      by (apply word_of_bytes_range || congruence).
    rewrite <- (bits_of_b32_of_bits (word_of_bytes b0 b1 b2 b3))
      by (apply word_of_bytes_range || congruence).
    congruence. }
  apply word_of_bytes_inj in W as (-> & -> & -> & ->). reflexivity.
Qed.

(** X5. Two groups of four bytes that [ExtractFloat] takes to the same
    number are the same bytes, unless the number is a NaN. *)
Theorem ExtractFloat_injective (buffer1 buffer2 : list byte)
    (offset1 offset2 : nat) (f : float32) :
  ExtractFloat buffer1 offset1 = Some f ->
  ExtractFloat buffer2 offset2 = Some f ->
  Fp.is_nan f = false ->
  take 4 (drop offset1 buffer1) = take 4 (drop offset2 buffer2).
Proof. exact (ExtractFloat_same_bytes buffer1 buffer2 offset1 offset2 f). Qed.

Lemma ExtractFloat_injective_witness :
  take 4 (drop 2 frame_forward) = take 4 (drop 10 frame_forward).
Proof.
  apply (ExtractFloat_injective frame_forward frame_forward 2 10 f_zero);
    reflexivity.
Defined.

End DecoderMore.

(** ** Encoding, validation and decoding together *)

Section EndToEnd.

(** X6. A frame that passes validation is determined by the three numbers it
    carries, as long as none of them is a NaN. *)
Theorem valid_frame_determined (frame1 frame2 : list byte) (x y z : float32) :
  List.length frame1 = 15%nat -> List.length frame2 = 15%nat ->
  ValidateBLEPacket frame1 = Some true ->
  ValidateBLEPacket frame2 = Some true ->
  ExtractFloat frame1 2 = Some x -> ExtractFloat frame2 2 = Some x ->
  ExtractFloat frame1 6 = Some y -> ExtractFloat frame2 6 = Some y ->
  ExtractFloat frame1 10 = Some z -> ExtractFloat frame2 10 = Some z ->
  Fp.is_nan x = false -> Fp.is_nan y = false -> Fp.is_nan z = false ->
  frame1 = frame2.
Proof.
  intros L1 L2 V1 V2 X1 X2 Y1 Y2 Z1 Z2 Nx Ny Nz.
  pose proof (ExtractFloat_same_bytes _ _ _ _ _ X1 X2 Nx) as Ex.
  pose proof (ExtractFloat_same_bytes _ _ _ _ _ Y1 Y2 Ny) as Ey.
  pose proof (ExtractFloat_same_bytes _ _ _ _ _ Z1 Z2 Nz) as Ez.
  destruct (valid_frame_shape frame1 L1 V1) as (body1 & -> & B1).
  destruct (valid_frame_shape frame2 L2 V2) as (body2 & -> & B2).
  do 14 (destruct body1 as [|? body1]; try discriminate).
  do 14 (destruct body2 as [|? body2]; try discriminate).
  simpl in Ex, Ey, Ez.
  injection Ex as -> -> -> ->. injection Ey as -> -> -> ->.
  injection Ez as -> -> -> ->.
  repeat f_equal.
  erewrite ValidateBLEPacket_spec in V1, V2 by reflexivity.
  injection V1 as V1. injection V2 as V2.
  apply Z.eqb_eq in V1, V2. apply u8_inj. rewrite <- V1, <- V2. reflexivity.
Qed.

Lemma valid_frame_determined_witness :
  frame_forward = frame_of f_zero f_half f_zero.
Proof.
  apply (valid_frame_determined frame_forward (frame_of f_zero f_half f_zero)
           f_zero f_half f_zero);
    vm_compute; reflexivity.
Defined.

Lemma frame_of_extract (x y z : float32) (tail : list byte) :
  is_binary32 x = true -> is_binary32 y = true -> is_binary32 z = true ->
  ExtractFloat (frame_of x y z ++ tail) 2 = Some x
  /\ ExtractFloat (frame_of x y z ++ tail) 6 = Some y
  /\ ExtractFloat (frame_of x y z ++ tail) 10 = Some z.
Proof.
  intros Hx Hy Hz.
  pose proof (bits_of_b32_range x Hx) as Rx.
  pose proof (bits_of_b32_range y Hy) as Ry.
  pose proof (bits_of_b32_range z Hz) as Rz.
  set (cs := byte_of_Z (checksum (Byte.x21 :: Byte.x47
               :: encode_f32 x ++ encode_f32 y ++ encode_f32 z))).
  split; [|split].
  - etransitivity;
      [exact (ExtractFloat_le32 [Byte.x21; Byte.x47]
                (encode_f32 y ++ encode_f32 z ++ cs :: tail) _ Rx)|].
    f_equal. apply b32_of_bits_of_b32, Hx.
  - etransitivity;
      [exact (ExtractFloat_le32 (Byte.x21 :: Byte.x47 :: encode_f32 x)
                (encode_f32 z ++ cs :: tail) _ Ry)|].
    f_equal. apply b32_of_bits_of_b32, Hy.
  - etransitivity;
      [exact (ExtractFloat_le32
                (Byte.x21 :: Byte.x47 :: encode_f32 x ++ encode_f32 y)
                (cs :: tail) _ Rz)|].
    f_equal. apply b32_of_bits_of_b32, Hz.
Qed.

Lemma frame_of_valid (x y z : float32) (tail : list byte) :
  ValidateBLEPacket (frame_of x y z ++ tail) = Some true.
Proof.
  set (head := Byte.x21 :: Byte.x47
               :: encode_f32 x ++ encode_f32 y ++ encode_f32 z).
  rewrite (ValidateBLEPacket_spec _ Byte.x21 Byte.x47
             (byte_of_Z (checksum head))) by reflexivity.
  change (take 14 (frame_of x y z ++ tail)) with head.
  rewrite u8_byte_of_Z. unfold to_u8.
  rewrite Z.mod_small by apply checksum_range.
  rewrite (Z.eqb_refl (checksum head)). reflexivity.
Qed.

(** X7. Encoding, validation and decoding fit together: the frame built for
    a sample of three binary32 numbers passes validation, and
    [ParseBLEPacket] and [BLE_UART_HandleRxData] get the three numbers
    out of it, whatever follows the frame in the buffer. *)
Theorem frame_of_parses (x y z : float32) (tail : list byte) :
  is_binary32 x = true -> is_binary32 y = true -> is_binary32 z = true ->
  List.length (frame_of x y z) = 15%nat
  /\ ValidateBLEPacket (frame_of x y z ++ tail) = Some true
  /\ ParseBLEPacket (frame_of x y z ++ tail) = Some (Parsed_Floats x y z)
  /\ BLE_UART_HandleRxData (frame_of x y z ++ tail) 15
     = Some (Parsed (Parsed_Floats x y z)).
Proof.
  intros Hx Hy Hz.
  destruct (frame_of_extract x y z tail Hx Hy Hz) as (Ex & Ey & Ez).
  pose proof (frame_of_valid x y z tail) as V.
  assert (P : ParseBLEPacket (frame_of x y z ++ tail)
              = Some (Parsed_Floats x y z)).
  { unfold ParseBLEPacket. rewrite V. cbv [mbind option_bind negb].
    rewrite Ex, Ey, Ez. reflexivity. }
  split; [reflexivity|]. split; [exact V|]. split; [exact P|].
  unfold BLE_UART_HandleRxData.
  change (negb (15 =? 15)) with false. cbv iota.
  change ((frame_of x y z ++ tail) !! 0%nat) with (Some Byte.x21).
  change ((frame_of x y z ++ tail) !! 1%nat) with (Some Byte.x47).
  cbv [mbind option_bind].
  change (negb (u8 Byte.x21 =? 33)) with false.
  change (negb (u8 Byte.x47 =? 71)) with false. cbv iota.
  assert (C : checkCRC (frame_of x y z ++ tail) = Some true).
  { rewrite checkCRC_eq. unfold ValidateBLEPacket in V.
    change ((frame_of x y z ++ tail) !! 0%nat) with (Some Byte.x21) in V.
    change ((frame_of x y z ++ tail) !! 1%nat) with (Some Byte.x47) in V.
    exact V. }
  fold (checkCRC (frame_of x y z ++ tail)).
  rewrite C, P. reflexivity.
Qed.

Lemma frame_of_parses_witness :
  List.length (frame_of f_1_5 f_m2_25 f_zero) = 15%nat
  /\ ValidateBLEPacket (frame_of f_1_5 f_m2_25 f_zero ++ [Byte.xff])
     = Some true
  /\ ParseBLEPacket (frame_of f_1_5 f_m2_25 f_zero ++ [Byte.xff])
     = Some (Parsed_Floats f_1_5 f_m2_25 f_zero)
  /\ BLE_UART_HandleRxData (frame_of f_1_5 f_m2_25 f_zero ++ [Byte.xff]) 15
     = Some (Parsed (Parsed_Floats f_1_5 f_m2_25 f_zero)).
Proof.
  apply (frame_of_parses f_1_5 f_m2_25 f_zero [Byte.xff]); reflexivity.
Defined.

End EndToEnd.

(** ** The other receive path *)

Section Handler.

(** X8. [BLE_UART_HandleRxData] rejects every length but 15 without looking
    at the buffer, and what it hands to [ParseBLEPacket] has already
    passed the tests [ParseBLEPacket] makes again: the parser never
    reports such a packet as invalid, and gets the three numbers at the
    offsets 2, 6 and 10 out of it. *)
Theorem HandleRxData_classifies (buffer : list byte) (len : Z)
    (log : parse_log) :
  (len <> 15 -> BLE_UART_HandleRxData buffer len = Some Error_Invalid_data)
  /\ (BLE_UART_HandleRxData buffer len = Some (Parsed log) ->
      len = 15
      /\ ValidateBLEPacket buffer = Some true
      /\ exists x y z,
          log = Parsed_Floats x y z
          /\ ExtractFloat buffer 2 = Some x
          /\ ExtractFloat buffer 6 = Some y
          /\ ExtractFloat buffer 10 = Some z)
  /\ (BLE_UART_HandleRxData buffer len = Some Error_CRC_failed ->
      len = 15 /\ take 2 buffer = [Byte.x21; Byte.x47]
      /\ ValidateCRC buffer = Some false)
  /\ ((15 <= List.length buffer)%nat ->
      ValidateBLEPacket buffer = Some true -> len = 15 ->
      exists x y z,
        BLE_UART_HandleRxData buffer len = Some (Parsed (Parsed_Floats x y z))).
Proof.
  unfold BLE_UART_HandleRxData.
  split; [|split; [|split]].
  - intros Hlen. replace (len =? 15) with false
      by (symmetry; apply Z.eqb_neq; exact Hlen).
    reflexivity.
  - destruct (Z.eqb_spec len 15) as [->|]; [|discriminate]. simpl negb.
    cbv iota. intros H.
    destruct (buffer !! 0%nat) as [b0|] eqn:E0; [|discriminate].
    cbv [mbind option_bind] in H.
    destruct (u8 b0 =? 33) eqn:M0; [|discriminate].
    destruct (buffer !! 1%nat) as [b1|] eqn:E1; [|discriminate].
    destruct (u8 b1 =? 71) eqn:M1; [|discriminate].
    simpl negb in H. cbv iota in H.
    destruct (checkCRC buffer) as [[|]|] eqn:C; try discriminate.
    simpl negb in H. cbv iota in H.
    assert (V : ValidateBLEPacket buffer = Some true).
    { unfold ValidateBLEPacket. rewrite E0. cbv [mbind option_bind].
      rewrite M0, E1, M1. simpl negb. cbv iota.
      rewrite <- checkCRC_eq. exact C. }
    split; [reflexivity|]. split; [exact V|].
    unfold ParseBLEPacket in H. rewrite V in H.
    cbv [mbind option_bind negb fmap option_fmap option_map] in H.
    destruct (ExtractFloat buffer 2) as [x|]; [|discriminate].
    destruct (ExtractFloat buffer 6) as [y|]; [|discriminate].
    destruct (ExtractFloat buffer 10) as [z|]; [|discriminate].
    injection H as <-. exists x, y, z. auto.
  - destruct (Z.eqb_spec len 15) as [->|]; [|discriminate]. simpl negb.
    cbv iota. intros H.
    destruct (buffer !! 0%nat) as [b0|] eqn:E0; [|discriminate].
    cbv [mbind option_bind] in H.
    destruct (u8 b0 =? 33) eqn:M0; [|discriminate].
    destruct (buffer !! 1%nat) as [b1|] eqn:E1; [|discriminate].
    destruct (u8 b1 =? 71) eqn:M1; [|discriminate].
    simpl negb in H. cbv iota in H.
    destruct (checkCRC buffer) as [[|]|] eqn:C; try discriminate.
    + simpl negb in H. cbv iota in H.
      destruct (ParseBLEPacket buffer); discriminate.
    + apply (u8_eqb_marker b0 Byte.x21) in M0.
      apply (u8_eqb_marker b1 Byte.x47) in M1. subst.
      split; [reflexivity|]. split; [|rewrite <- checkCRC_eq; exact C].
      destruct buffer as [|a0 [|a1 rest]]; try discriminate.
      simpl in *. rewrite take_0. congruence.
  - intros Hlen V ->. simpl negb. cbv iota.
    destruct (valid_frame_shape (take 15 buffer)) as (body & Hshape & _).
    { rewrite length_take. lia. }
    { rewrite <- V. symmetry.
      destruct buffer as [|a0 [|a1 rest]]; try (simpl in Hlen; lia).
      unfold ValidateBLEPacket. simpl lookup.
      assert (Hcrc : ValidateCRC (a0 :: a1 :: rest)
                     = ValidateCRC (take 15 (a0 :: a1 :: rest))).
      { unfold ValidateCRC.
        rewrite (sum_loop_ext _ (take 15 (a0 :: a1 :: rest)))
          by (intros j Hj; rewrite lookup_take_lt by lia; reflexivity).
        rewrite (lookup_take_lt _ 15 14) by lia. reflexivity. }
      rewrite Hcrc. reflexivity. }
    destruct buffer as [|a0 [|a1 rest]]; try (simpl in Hlen; lia).
    simpl in Hshape. injection Hshape as -> -> _.
    simpl lookup. cbv [mbind option_bind].
    change (negb (u8 Byte.x21 =? 33)) with false.
    change (negb (u8 Byte.x47 =? 71)) with false. cbv iota.
    assert (C : checkCRC (Byte.x21 :: Byte.x47 :: rest) = Some true).
    { rewrite checkCRC_eq. unfold ValidateBLEPacket in V.
      simpl lookup in V. exact V. }
    fold (checkCRC (Byte.x21 :: Byte.x47 :: rest)). rewrite C.
    simpl negb. cbv iota.
    unfold ParseBLEPacket. rewrite V. cbv [mbind option_bind negb].
    destruct (ExtractFloat_is_Some (Byte.x21 :: Byte.x47 :: rest) 2
                ltac:(lia)) as [x ->].
    destruct (ExtractFloat_is_Some (Byte.x21 :: Byte.x47 :: rest) 6
                ltac:(lia)) as [y ->].
    destruct (ExtractFloat_is_Some (Byte.x21 :: Byte.x47 :: rest) 10
                ltac:(lia)) as [z ->].
    exists x, y, z. reflexivity.
Qed.

Lemma HandleRxData_classifies_witness :
  BLE_UART_HandleRxData [] 14 = Some Error_Invalid_data
  /\ ValidateBLEPacket frame_forward = Some true
  /\ ValidateCRC frame_corrupt = Some false
  /\ exists x y z,
      BLE_UART_HandleRxData frame_forward 15
      = Some (Parsed (Parsed_Floats x y z)).
Proof.
  split; [|split; [|split]].
  - apply (proj1 (HandleRxData_classifies [] 14 Invalid_BLE_Packet)). lia.
  - apply (proj1 (proj2 (HandleRxData_classifies frame_forward 15
                           (Parsed_Floats f_zero f_half f_zero)))).
    vm_compute. reflexivity.
  - apply (proj1 (proj2 (proj2 (HandleRxData_classifies frame_corrupt 15
                                  Invalid_BLE_Packet)))).
    vm_compute. reflexivity.
  - apply (proj2 (proj2 (proj2 (HandleRxData_classifies frame_forward 15
                                  Invalid_BLE_Packet)))).
    + simpl. lia.
    + vm_compute. reflexivity.
    + reflexivity.
Defined.

End Handler.

(** ** More on the command mapper *)

Section MapperMore.

(** X9. When [Motor_Stop] is called it is the only call of the turn, and no
    call of [MotorControlFromGyro] makes more than two motor calls. *)
Theorem stop_is_alone (x y z : float32) :
  (In Motor_Stop (MotorControlFromGyro x y z) ->
   MotorControlFromGyro x y z = [Motor_Stop])
  /\ (List.length (MotorControlFromGyro x y z) <= 2)%nat.
Proof.
  split.
  - intros H. apply Stop_iff in H as [Wx Wy]. unfold within in Wx, Wy.
    destruct (within_threshold_inv x Wx) as [Gx Lx].
    destruct (within_threshold_inv y Wy) as [Gy Ly].
    unfold MotorControlFromGyro. rewrite Gx, Lx, Gy, Ly, Wx, Wy. reflexivity.
  - pose proof (within_threshold_inv x) as Ix.
    pose proof (within_threshold_inv y) as Iy.
    unfold MotorControlFromGyro.
    destruct (Fp.le (Fp.fabs x) Fp.d0_2);
      [destruct (Ix eq_refl) as [-> ->]|];
      (destruct (Fp.le (Fp.fabs y) Fp.d0_2);
       [destruct (Iy eq_refl) as [-> ->]|]);
      cbn [andb];
      repeat match goal with
             | |- context [if ?b then _ else _] => destruct b
             end; simpl; lia.
Qed.

Lemma stop_is_alone_witness :
  MotorControlFromGyro f_tenth f_zero f_half = [Motor_Stop].
Proof.
  apply (proj1 (stop_is_alone f_tenth f_zero f_half)).
  vm_compute. auto.
Defined.

Lemma value_opp (a : spec_float) : Fp.value (SFopp a) = Qopp (Fp.value a).
Proof.
  destruct a as [s|s| |s m e]; try reflexivity.
  destruct s, e as [|p|p]; try reflexivity;
    unfold SFopp, Fp.value, Fp.dyadic, Qopp, inject_Z; simpl negb;
    cbv iota; simpl Qnum; f_equal;
    rewrite <- Z.mul_opp_l; reflexivity.
Qed.

Lemma opp_comparisons (a : spec_float) :
  Fp.gt (SFopp a) Fp.d0_2 = Fp.lt a Fp.dm0_2
  /\ Fp.lt (SFopp a) Fp.dm0_2 = Fp.gt a Fp.d0_2
  /\ Fp.le (Fp.fabs (SFopp a)) Fp.d0_2 = Fp.le (Fp.fabs a) Fp.d0_2.
Proof.
  destruct a as [s|s| |s m e]; try (destruct s; repeat split; reflexivity);
    [repeat split; reflexivity|].
  assert (Hn : is_number (S754_finite s m e) = true) by reflexivity.
  assert (Hn' : is_number (SFopp (S754_finite s m e)) = true) by reflexivity.
  split; [|split].
  - apply eq_true_iff_eq.
    rewrite (gt_numbers _ Fp.d0_2 Hn' eq_refl).
    rewrite (lt_numbers _ Fp.dm0_2 Hn eq_refl).
    rewrite value_opp.
    change (Fp.value Fp.dm0_2) with (Qopp (Fp.value Fp.d0_2)).
    split; intros; lra.
  - apply eq_true_iff_eq.
    rewrite (lt_numbers _ Fp.dm0_2 Hn' eq_refl).
    rewrite (gt_numbers _ Fp.d0_2 Hn eq_refl).
    rewrite value_opp.
    change (Fp.value Fp.dm0_2) with (Qopp (Fp.value Fp.d0_2)).
    split; intros; lra.
  - reflexivity.
Qed.

Lemma gt_excludes_lt (a : spec_float) :
  Fp.gt a Fp.d0_2 = true -> Fp.lt a Fp.dm0_2 = false.
Proof.
  destruct a as [s|s| |s m e]; try (destruct s; cbv; congruence);
    [cbv; congruence|].
  assert (Hn : is_number (S754_finite s m e) = true) by reflexivity.
  intros G. apply (gt_numbers _ Fp.d0_2 Hn eq_refl) in G.
  destruct (Fp.lt (S754_finite s m e) Fp.dm0_2) eqn:L; [|reflexivity].
  apply (lt_numbers _ Fp.dm0_2 Hn eq_refl) in L.
  change (Fp.value Fp.dm0_2) with (Qopp (Fp.value Fp.d0_2)) in L.
  assert (T : (0 < Fp.value Fp.d0_2)%Q) by (vm_compute; reflexivity).
  lra.
Qed.

(** X10. The mapper is symmetric: with the signs of [x] and [y] changed every
    motor call becomes the opposite one. *)
Theorem MotorControlFromGyro_mirror (x y z : float32) :
  MotorControlFromGyro (SFopp x) (SFopp y) z
  = map mirror (MotorControlFromGyro x y z).
Proof.
  unfold MotorControlFromGyro.
  destruct (opp_comparisons x) as (-> & -> & ->).
  destruct (opp_comparisons y) as (-> & -> & ->).
  pose proof (gt_excludes_lt x) as Ex. pose proof (gt_excludes_lt y) as Ey.
  destruct (Fp.gt x Fp.d0_2); [rewrite (Ex eq_refl)|];
    (destruct (Fp.gt y Fp.d0_2); [rewrite (Ey eq_refl)|]);
    repeat match goal with
           | |- context [if ?b then _ else _] => destruct b
           end; reflexivity.
Qed.

(** X11. For numbers of the binary32 format the mapper is the decision table
    with the thresholds 1/5 and -1/5 on the values of [x] and [y]. *)
Theorem MotorControlFromGyro_table (x y z : float32) :
  is_binary32 x = true -> is_number x = true ->
  is_binary32 y = true -> is_number y = true ->
  let vx := Fp.value x in
  let vy := Fp.value y in
  MotorControlFromGyro x y z
  = (if negb (Qle_bool vy (1 # 5)) then [Motor_Forward 3000 3000]
     else if negb (Qle_bool (- (1 # 5)) vy) then [Motor_Backward 3000 3000]
     else [])
    ++ (if negb (Qle_bool vx (1 # 5)) then [Motor_Right 3000 3000]
        else if negb (Qle_bool (- (1 # 5)) vx) then [Motor_Left 3000 3000]
        else [])
    ++ (if Qle_bool (Qabs vx) (1 # 5) && Qle_bool (Qabs vy) (1 # 5)
        then [Motor_Stop] else []).
Proof.
  intros Bx Nx By Ny vx vy.
  destruct (thresholds_exact x Bx Nx) as (Gx & Lx & Wx).
  destruct (thresholds_exact y By Ny) as (Gy & Ly & Wy).
  fold vx in Gx, Lx, Wx. fold vy in Gy, Ly, Wy. unfold within in Wx, Wy.
  assert (EGx : Fp.gt x Fp.d0_2 = negb (Qle_bool vx (1 # 5))).
  { apply eq_true_iff_eq. rewrite Gx, negb_true_iff, <- not_true_iff_false.
    rewrite Qle_bool_iff. split; intros; lra. }
  assert (ELx : Fp.lt x Fp.dm0_2 = negb (Qle_bool (- (1 # 5)) vx)).
  { apply eq_true_iff_eq. rewrite Lx, negb_true_iff, <- not_true_iff_false.
    rewrite Qle_bool_iff. split; intros; lra. }
  assert (EGy : Fp.gt y Fp.d0_2 = negb (Qle_bool vy (1 # 5))).
  { apply eq_true_iff_eq. rewrite Gy, negb_true_iff, <- not_true_iff_false.
    rewrite Qle_bool_iff. split; intros; lra. }
  assert (ELy : Fp.lt y Fp.dm0_2 = negb (Qle_bool (- (1 # 5)) vy)).
  { apply eq_true_iff_eq. rewrite Ly, negb_true_iff, <- not_true_iff_false.
    rewrite Qle_bool_iff. split; intros; lra. }
  assert (EWx : Fp.le (Fp.fabs x) Fp.d0_2 = Qle_bool (Qabs vx) (1 # 5)).
  { apply eq_true_iff_eq. rewrite Wx, Qle_bool_iff. reflexivity. }
  assert (EWy : Fp.le (Fp.fabs y) Fp.d0_2 = Qle_bool (Qabs vy) (1 # 5)).
  { apply eq_true_iff_eq. rewrite Wy, Qle_bool_iff. reflexivity. }
  unfold MotorControlFromGyro. rewrite EGx, ELx, EGy, ELy, EWx, EWy.
  reflexivity.
Qed.

Lemma MotorControlFromGyro_table_witness :
  MotorControlFromGyro f_half f_minus_half f_zero
  = [Motor_Backward 3000 3000; Motor_Right 3000 3000].
Proof.
  rewrite (MotorControlFromGyro_table f_half f_minus_half f_zero
             eq_refl eq_refl eq_refl eq_refl).
  vm_compute. reflexivity.
Defined.

End MapperMore.

(** ** More on the frame assembler *)

Section AssemblerMore.

Lemma InString_loop_length (size : Z) (input : list byte) :
  forall (buffer : list byte) (ptr length state : Z) (part : list byte)
         (n : Z) (buffer' rest : list byte),
    assembling state length part ->
    length <= size ->
    InString_loop size input buffer ptr length state
    = Returned n buffer' rest ->
    n = Z.min size 15.
Proof.
  induction input as [|c input IH];
    intros buffer ptr length state part n buffer' rest Hinv Hle Hret.
  - rewrite InString_loop_nil in Hret.
    destruct (Z.ltb_spec length size); [discriminate|].
    injection Hret as <- _ _. destruct Hinv; lia.
  - simpl InString_loop in Hret.
    destruct (Z.ltb_spec length size) as [Hlt|Hge].
    2: { injection Hret as <- _ _. destruct Hinv; lia. }
    destruct Hinv as [| |got Hgot]; simpl in Hret.
    + destruct (u8 c =? 33).
      * destruct (store buffer ptr c); [|discriminate].
        exact (IH _ _ _ _ _ _ _ _ assembling_matched ltac:(lia) Hret).
      * exact (IH _ _ _ _ _ _ _ _ assembling_idle ltac:(lia) Hret).
    + destruct (u8 c =? 71).
      * destruct (store buffer ptr c); [|discriminate].
        assert (A : assembling 2 (1 + 1) [Byte.x21; Byte.x47])
          by (apply (assembling_collecting []); simpl; lia).
        exact (IH _ _ _ _ _ _ _ _ A ltac:(lia) Hret).
      * exact (IH _ _ _ _ _ _ _ _ assembling_idle ltac:(lia) Hret).
    + destruct (store buffer ptr c); [|discriminate].
      destruct (Z.eqb_spec (2 + Z.of_nat (List.length got) + 1) 15) as [E|E].
      * injection Hret as <- _ _. lia.
      * assert (A : assembling 2 (2 + Z.of_nat (List.length (got ++ [c])))
                      (Byte.x21 :: Byte.x47 :: got ++ [c]))
          by (apply assembling_collecting; rewrite length_app; simpl; lia).
        replace (2 + Z.of_nat (List.length got) + 1)
          with (2 + Z.of_nat (List.length (got ++ [c]))) in Hret
          by (rewrite length_app; simpl; lia).
        refine (IH _ _ _ _ _ _ _ _ A _ Hret).
        rewrite length_app. simpl. lia.
Qed.

(** X12. The length [BLE_UART_InString] returns is the smaller of
    [buffer_size] and 15: with a buffer of fewer than 15 bytes the call
    returns as soon as [buffer_size] bytes of a frame are stored, and with
    [buffer_size] 0 it returns 0 at once and reads nothing. *)
Theorem InString_length (buffer input : list byte) (buffer_size n : Z)
    (buffer' rest : list byte) :
  0 <= buffer_size ->
  (BLE_UART_InString buffer buffer_size input = Returned n buffer' rest ->
   n = Z.min buffer_size 15)
  /\ BLE_UART_InString buffer 0 input = Returned 0 buffer input.
Proof.
  intros Hsize. split.
  - apply (InString_loop_length buffer_size input buffer 0 0 0 []);
      [exact assembling_idle | lia].
  - destruct input; reflexivity.
Qed.

Lemma InString_length_witness :
  BLE_UART_InString initial_buffer 4
    [Byte.x21; Byte.x47; Byte.x01; Byte.x02; Byte.x03]
  = Returned 4
      ([Byte.x21; Byte.x47; Byte.x01; Byte.x02] ++ drop 4 initial_buffer)
      [Byte.x03]
  /\ 4 = Z.min 4 15.
Proof.
  assert (H : BLE_UART_InString initial_buffer 4
                [Byte.x21; Byte.x47; Byte.x01; Byte.x02; Byte.x03]
              = Returned 4
                  ([Byte.x21; Byte.x47; Byte.x01; Byte.x02]
                   ++ drop 4 initial_buffer)
                  [Byte.x03])
    by (vm_compute; reflexivity).
  split; [exact H|].
  exact (proj1 (InString_length _ _ 4 4 _ _ ltac:(lia)) H).
Defined.

Lemma store_Some (buffer : list byte) (ptr : Z) (c : byte) (b : list byte) :
  store buffer ptr c = Some b ->
  0 <= ptr /\ (Z.to_nat ptr < List.length buffer)%nat
  /\ b = <[Z.to_nat ptr := c]> buffer.
Proof.
  unfold store. destruct (Z.leb_spec 0 ptr); simpl; [|discriminate].
  destruct (Z.ltb_spec ptr (Z.of_nat (List.length buffer))); [|discriminate].
  intros [= <-]. repeat split; lia.
Qed.

Lemma InString_loop_buffer (size : Z) (input : list byte) :
  forall (buffer : list byte) (ptr length state n : Z)
         (buffer' rest : list byte),
    0 <= ptr ->
    InString_loop size input buffer ptr length state
    = Returned n buffer' rest ->
    List.length buffer' = List.length buffer
    /\ exists read,
        input = read ++ rest
        /\ forall i : nat,
            (i < Z.to_nat ptr \/ Z.to_nat ptr + List.length read <= i)%nat ->
            buffer' !! i = buffer !! i.
Proof.
  induction input as [|c input IH];
    intros buffer ptr length state n buffer' rest Hptr Hret.
  - rewrite InString_loop_nil in Hret.
    destruct (length <? size); [discriminate|]. injection Hret as _ <- <-.
    split; [reflexivity|]. exists []. auto.
  - simpl InString_loop in Hret.
    assert (Step : forall b ptr' length' state',
               store buffer ptr c = Some b -> ptr' = ptr + 1 ->
               InString_loop size input b ptr' length' state'
               = Returned n buffer' rest ->
               List.length buffer' = List.length buffer
               /\ exists read,
                   c :: input = read ++ rest
                   /\ forall i : nat,
                       (i < Z.to_nat ptr
                        \/ Z.to_nat ptr + List.length read <= i)%nat ->
                       buffer' !! i = buffer !! i).
    { intros b ptr' length' state' Hst -> Hrec.
      apply store_Some in Hst as (_ & Hin & ->).
      apply IH in Hrec as (Hlen & read & -> & Hsame); [|lia].
      rewrite length_insert in Hlen. split; [exact Hlen|].
      exists (c :: read). split; [reflexivity|].
      intros i Hi. simpl in Hi. rewrite Hsame by lia.
      apply list_lookup_insert_ne. lia. }
    destruct (length <? size).
    2: { injection Hret as _ <- <-. split; [reflexivity|]. exists []. auto. }
    destruct ((state =? 0) && (u8 c =? 33)).
    { destruct (store buffer ptr c) eqn:Hst; [|discriminate]. eauto. }
    destruct ((state =? 1) && (u8 c =? 71)).
    { destruct (store buffer ptr c) eqn:Hst; [|discriminate]. eauto. }
    destruct (state =? 2).
    { destruct (store buffer ptr c) eqn:Hst; [|discriminate].
      cbv zeta in Hret. destruct (length + 1 =? 15); [|eauto].
      injection Hret as _ <- <-.
      apply store_Some in Hst as (_ & Hin & ->).
      rewrite length_insert. split; [reflexivity|].
      exists [c]. split; [reflexivity|].
      intros i Hi. simpl in Hi. apply list_lookup_insert_ne. lia. }
    cbv zeta in Hret. rewrite Z.sub_0_r in Hret.
    apply IH in Hret as (Hlen & read & -> & Hsame); [|lia].
    split; [exact Hlen|]. exists (c :: read). split; [reflexivity|].
    intros i Hi. simpl in Hi. apply Hsame. lia.
Qed.

(** X13. [BLE_UART_InString] leaves the buffer its size, and changes it at
    most at as many places as it has read bytes: every byte at an index
    from the number of bytes read on is what it was. *)
Theorem InString_buffer (buffer input : list byte) (buffer_size n : Z)
    (buffer' rest : list byte) :
  BLE_UART_InString buffer buffer_size input = Returned n buffer' rest ->
  List.length buffer' = List.length buffer
  /\ exists read,
      input = read ++ rest
      /\ forall i : nat,
          (List.length read <= i)%nat -> buffer' !! i = buffer !! i.
Proof.
  intros Hret.
  destruct (InString_loop_buffer _ _ _ _ _ _ _ _ _ (Z.le_refl 0) Hret)
    as (Hlen & read & Hsplit & Hsame).
  split; [exact Hlen|]. exists read. split; [exact Hsplit|].
  intros i Hi. apply Hsame. simpl. lia.
Qed.

Lemma InString_buffer_witness :
  exists read,
    [Byte.x21; Byte.x00] ++ frame_forward = read ++ []
    /\ forall i : nat,
        (List.length read <= i)%nat ->
        (Byte.x21 :: frame_forward ++ drop 16 initial_buffer) !! i
        = initial_buffer !! i.
Proof.
  apply (InString_buffer initial_buffer ([Byte.x21; Byte.x00] ++ frame_forward)
           128 15 (Byte.x21 :: frame_forward ++ drop 16 initial_buffer) []).
  vm_compute. reflexivity.
Defined.

End AssemblerMore.

(** ** False starts *)

Section Drift.

Lemma store_out_of_range (buffer : list byte) (i : nat) (c : byte) :
  (List.length buffer <= i)%nat -> store buffer (Z.of_nat i) c = None.
Proof.
  intros Hi. unfold store.
  replace (Z.of_nat i <? Z.of_nat (List.length buffer)) with false
    by (symmetry; apply Z.ltb_ge; lia).
  rewrite andb_false_r. reflexivity.
Qed.

(** One false start: the 0x21 is stored, the byte after it sends the
    loop back to state 0, and the pointer stays behind the stored byte. *)
Lemma one_false_start (size : Z) (seg : list byte * byte)
    (input buffer : list byte) (i : nat) :
  is_false_start seg -> 1 < size ->
  InString_loop size (false_start seg ++ input) buffer (Z.of_nat i) 0 0
  = if decide (i < List.length buffer)%nat
    then InString_loop size input (<[i := Byte.x21]> buffer)
           (Z.of_nat (S i)) 0 0
    else Overflow.
Proof.
  intros [Hnoise Hc] Hsize. destruct seg as [noise c]. simpl in *.
  unfold false_start. simpl fst. simpl snd. rewrite <- app_assoc.
  rewrite skip_noise by (assumption || lia).
  simpl app. simpl InString_loop.
  replace (0 <? size) with true by (symmetry; apply Z.ltb_lt; lia).
  destruct (decide (i < List.length buffer)%nat) as [Hi|Hi].
  - rewrite store_in_range by exact Hi.
    replace (1 <? size) with true by (symmetry; apply Z.ltb_lt; lia).
    replace (u8 c =? 71) with false.
    + simpl. rewrite Z.sub_0_r. f_equal. lia.
    + symmetry. apply not_true_is_false. intros E.
      apply (u8_eqb_marker c Byte.x47) in E. contradiction.
  - rewrite store_out_of_range by lia. reflexivity.
Qed.

Lemma false_starts (size : Z) (segs : list (list byte * byte)) :
  1 < size -> Forall is_false_start segs ->
  forall (input buffer : list byte) (i : nat),
    (i <= List.length buffer)%nat ->
    InString_loop size (concat (map false_start segs) ++ input) buffer
      (Z.of_nat i) 0 0
    = if decide (i + List.length segs <= List.length buffer)%nat
      then InString_loop size input
             (take i buffer ++ replicate (List.length segs) Byte.x21
              ++ drop (i + List.length segs) buffer)
             (Z.of_nat (i + List.length segs)) 0 0
      else Overflow.
Proof.
  intros Hsize. induction 1 as [|seg segs Hseg _ IH];
    intros input buffer i Hi0.
  - simpl. rewrite Nat.add_0_r. rewrite decide_True by lia.
    rewrite take_drop. reflexivity.
  - simpl concat. rewrite <- app_assoc.
    rewrite one_false_start by assumption.
    destruct (decide (i < List.length buffer)%nat) as [Hi|Hi].
    2: { rewrite decide_False by (simpl; lia). reflexivity. }
    rewrite IH by (rewrite length_insert; lia).
    rewrite length_insert. simpl List.length.
    destruct (decide (S i + List.length segs <= List.length buffer)%nat)
      as [Hfit|Hfit].
    + rewrite decide_True by lia.
      replace (i + S (List.length segs))%nat
        with (S i + List.length segs)%nat by lia.
      f_equal.
      rewrite (take_S_r _ _ Byte.x21) by (apply list_lookup_insert_eq; lia).
      rewrite take_insert_ge by lia.
      rewrite drop_insert_lt by lia.
      rewrite <- app_assoc. reflexivity.
    + rewrite decide_False by lia. reflexivity.
Qed.

Lemma collect_overflow (size : Z) (rest : list byte) (body : list byte) :
  forall (buffer : list byte) (i : nat) (length : Z),
    body <> [] ->
    length + Z.of_nat (List.length body) = 15 ->
    15 <= size ->
    (List.length buffer < i + List.length body)%nat ->
    InString_loop size (body ++ rest) buffer (Z.of_nat i) length 2
    = Overflow.
Proof.
  induction body as [|c body IH]; intros buffer i length Hne Hlen Hsize Hfit;
    [contradiction|].
  simpl List.length in *. simpl app. simpl InString_loop.
  replace (length <? size) with true by (symmetry; apply Z.ltb_lt; lia).
  destruct (decide (i < List.length buffer)%nat) as [Hi|Hi].
  - rewrite store_in_range by exact Hi.
    destruct body as [|c' body]; [simpl in Hfit; lia|].
    simpl List.length in *.
    replace (length + 1 =? 15) with false
      by (symmetry; apply Z.eqb_neq; lia).
    replace (Z.of_nat i + 1) with (Z.of_nat (S i)) by lia.
    apply IH; rewrite ?length_insert; simpl; (discriminate || lia).
  - rewrite store_out_of_range by lia. reflexivity.
Qed.

Lemma frame_overflow (size : Z) (body rest buffer : list byte) (i : nat) :
  List.length body = 13%nat -> 15 <= size ->
  (List.length buffer < i + 15)%nat ->
  InString_loop size (Byte.x21 :: Byte.x47 :: body ++ rest) buffer
    (Z.of_nat i) 0 0
  = Overflow.
Proof.
  intros Hbody Hsize Hfit. simpl InString_loop.
  replace (0 <? size) with true by (symmetry; apply Z.ltb_lt; lia).
  destruct (decide (i < List.length buffer)%nat) as [Hi|Hi].
  2: { rewrite store_out_of_range by lia. reflexivity. }
  rewrite store_in_range by exact Hi.
  replace (1 <? size) with true by (symmetry; apply Z.ltb_lt; lia).
  replace (Z.of_nat i + 1) with (Z.of_nat (S i)) by lia.
  destruct (decide (S i < List.length buffer)%nat) as [Hi'|Hi'].
  2: { rewrite store_out_of_range by (rewrite length_insert; lia).
       reflexivity. }
  rewrite store_in_range by (rewrite length_insert; lia).
  replace (Z.of_nat (S i) + 1) with (Z.of_nat (S (S i))) by lia.
  apply collect_overflow; rewrite ?length_insert; simpl;
    [intros ->; discriminate | lia..].
Qed.

Lemma InString_loop_no_overflow (size : Z) (input : list byte) :
  forall (buffer : list byte) (ptr length state : Z),
    0 <= ptr ->
    ptr + Z.of_nat (List.length input) <= Z.of_nat (List.length buffer) ->
    InString_loop size input buffer ptr length state <> Overflow.
Proof.
  induction input as [|c input IH]; intros buffer ptr length state Hptr Hfit.
  - rewrite InString_loop_nil. destruct (length <? size); discriminate.
  - simpl List.length in Hfit. simpl InString_loop.
    assert (Hstore : forall k, store buffer ptr k
                               = Some (<[Z.to_nat ptr := k]> buffer)).
    { intros k. rewrite <- (Z2Nat.id ptr) at 1 by lia.
      apply store_in_range. lia. }
    destruct (length <? size); [|discriminate].
    rewrite !Hstore.
    destruct ((state =? 0) && (u8 c =? 33));
      [apply IH; rewrite ?length_insert; lia|].
    destruct ((state =? 1) && (u8 c =? 71));
      [apply IH; rewrite ?length_insert; lia|].
    destruct (state =? 2).
    + destruct (length + 1 =? 15); [discriminate|].
      apply IH; rewrite ?length_insert; lia.
    + apply IH; lia.
Qed.

(** X14. Pointer drift. After false starts the frame is not stored at the
    start of the buffer but behind one 0x21 for each false start, so that
    the first 15 bytes of the buffer, which are what [main] validates and
    decodes, are not the frame and do not pass validation. *)
Theorem frame_after_false_starts (segs : list (list byte * byte))
    (noise body rest buffer : list byte) (buffer_size : Z) :
  Forall is_false_start segs ->
  Forall (fun c => c <> Byte.x21) noise ->
  List.length body = 13%nat ->
  15 <= buffer_size ->
  (List.length segs + 15 <= List.length buffer)%nat ->
  let buffer' :=
    replicate (List.length segs) Byte.x21
    ++ Byte.x21 :: Byte.x47 :: body ++ drop (List.length segs + 15) buffer in
  BLE_UART_InString buffer buffer_size
    (concat (map false_start segs)
     ++ noise ++ Byte.x21 :: Byte.x47 :: body ++ rest)
  = Returned 15 buffer' rest
  /\ (segs <> [] -> ValidateBLEPacket buffer' = Some false).
Proof.
  intros Hsegs Hnoise Hbody Hsize Hfit buffer'. split.
  - unfold BLE_UART_InString. change 0 with (Z.of_nat 0) at 1.
    rewrite false_starts by (assumption || lia).
    rewrite decide_True by lia.
    rewrite skip_noise by (assumption || lia).
    rewrite collect_frame;
      [|assumption|assumption|
       rewrite !length_app, length_replicate, length_drop; simpl; lia].
    f_equal. subst buffer'. simpl.
    set (k := List.length segs) in *.
    rewrite take_app_length' by (rewrite length_replicate; reflexivity).
    f_equal. f_equal. f_equal. f_equal.
    rewrite drop_app_ge by (rewrite length_replicate; lia).
    rewrite length_replicate, drop_drop. f_equal. lia.
  - intros Hne. subst buffer'.
    destruct segs as [|s1 [|s2 segs]]; [contradiction|reflexivity|reflexivity].
Qed.

Lemma frame_after_false_starts_witness :
  BLE_UART_InString initial_buffer 128
    (concat (map false_start [([Byte.x07], Byte.x00)])
     ++ [] ++ Byte.x21 :: Byte.x47 :: drop 2 frame_forward ++ [])
  = Returned 15
      (replicate 1 Byte.x21
       ++ Byte.x21 :: Byte.x47 :: drop 2 frame_forward
          ++ drop (1 + 15) initial_buffer) []
  /\ ValidateBLEPacket
       (replicate 1 Byte.x21
        ++ Byte.x21 :: Byte.x47 :: drop 2 frame_forward
           ++ drop (1 + 15) initial_buffer)
     = Some false.
Proof.
  destruct (frame_after_false_starts [([Byte.x07], Byte.x00)] []
              (drop 2 frame_forward) [] initial_buffer 128) as [H1 H2].
  - repeat constructor; discriminate.
  - constructor.
  - reflexivity.
  - lia.
  - vm_compute. lia.
  - split; [exact H1 | apply H2; discriminate].
Defined.

(** X15. No store outside the array is made as long as the stream is no longer
    than the array; but [buffer_pointer] is never compared with
    [buffer_size], and when the false starts and the frame together need
    more room than the array has, a byte is stored outside it. *)
Theorem InString_overflow (segs : list (list byte * byte))
    (noise body rest buffer input : list byte) (buffer_size : Z) :
  Forall is_false_start segs ->
  Forall (fun c => c <> Byte.x21) noise ->
  List.length body = 13%nat ->
  15 <= buffer_size ->
  ((List.length input <= List.length buffer)%nat ->
   BLE_UART_InString buffer buffer_size input <> Overflow)
  /\ ((List.length buffer < List.length segs + 15)%nat ->
      BLE_UART_InString buffer buffer_size
        (concat (map false_start segs)
         ++ noise ++ Byte.x21 :: Byte.x47 :: body ++ rest)
      = Overflow).
Proof.
  intros Hsegs Hnoise Hbody Hsize. split.
  - intros Hfit. apply InString_loop_no_overflow; lia.
  - intros Hfit. unfold BLE_UART_InString. change 0 with (Z.of_nat 0) at 1.
    rewrite false_starts by (assumption || lia).
    destruct (decide (0 + List.length segs <= List.length buffer)%nat);
      [|reflexivity].
    rewrite skip_noise by (assumption || lia).
    apply frame_overflow; [assumption|assumption|].
    rewrite !length_app, length_replicate, length_drop, length_take. lia.
Qed.

Lemma InString_overflow_witness :
  BLE_UART_InString initial_buffer 128 frame_forward <> Overflow
  /\ BLE_UART_InString initial_buffer 128
       (concat (map false_start (replicate 114 ([], Byte.x00)))
        ++ [] ++ Byte.x21 :: Byte.x47 :: drop 2 frame_forward ++ [])
     = Overflow.
Proof.
  destruct (InString_overflow (replicate 114 ([], Byte.x00)) []
              (drop 2 frame_forward) [] initial_buffer frame_forward 128)
    as [H1 H2].
  - apply Forall_replicate. split; [constructor | discriminate].
  - constructor.
  - reflexivity.
  - lia.
  - split; [apply H1; vm_compute; lia | apply H2; vm_compute; lia].
Defined.

(** X16. A byte 0x21 right in front of a frame takes the frame's own first
    byte for the second marker byte, discards it and goes back to state
    0: if no other 0x21 follows, the frame is never returned. *)
Theorem stray_marker_eats_frame (noise frame tail buffer : list byte)
    (buffer_size : Z) :
  Forall (fun c => c <> Byte.x21) noise ->
  List.length frame = 15%nat ->
  ValidateBLEPacket frame = Some true ->
  Forall (fun c => c <> Byte.x21) (drop 1 frame ++ tail) ->
  1 < buffer_size ->
  (0 < List.length buffer)%nat ->
  BLE_UART_InString buffer buffer_size (noise ++ Byte.x21 :: frame ++ tail)
  = Blocked.
Proof.
  intros Hnoise Hlen Hvalid Hclean Hsize Hbuf.
  destruct (valid_frame_shape frame Hlen Hvalid) as (body & -> & Hbody).
  simpl drop in Hclean.
  unfold BLE_UART_InString. change 0 with (Z.of_nat 0) at 1.
  replace (noise ++ Byte.x21 :: (Byte.x21 :: Byte.x47 :: body) ++ tail)
    with (false_start (noise, Byte.x21) ++ ((Byte.x47 :: body) ++ tail))
    by (unfold false_start; simpl; rewrite <- app_assoc; reflexivity).
  rewrite one_false_start by (done || lia).
  rewrite decide_True by lia.
  rewrite <- (app_nil_r ((Byte.x47 :: body) ++ tail)).
  rewrite skip_noise by (assumption || lia).
  rewrite InString_loop_nil.
  replace (0 <? buffer_size) with true by (symmetry; apply Z.ltb_lt; lia).
  reflexivity.
Qed.

Lemma stray_marker_eats_frame_witness :
  BLE_UART_InString initial_buffer 128
    ([Byte.x00] ++ Byte.x21 :: frame_forward ++ [Byte.x0d; Byte.x0a])
  = Blocked.
Proof.
  apply (stray_marker_eats_frame [Byte.x00] frame_forward
           [Byte.x0d; Byte.x0a] initial_buffer 128).
  - repeat constructor; discriminate.
  - reflexivity.
  - vm_compute. reflexivity.
  - repeat constructor; discriminate.
  - lia.
  - vm_compute. lia.
Defined.

End Drift.

(** ** The main loop over a stream *)

Section Loop.

Lemma main_iteration_skip_noise (noise input buffer : list byte) :
  Forall (fun c => c <> Byte.x21) noise ->
  main_iteration buffer (noise ++ input) = main_iteration buffer input.
Proof.
  intros Hnoise. unfold main_iteration, BLE_UART_InString.
  rewrite skip_noise by (assumption || reflexivity). reflexivity.
Qed.

Lemma main_iteration_framed (seg : list byte * list byte)
    (rest buffer : list byte) :
  is_framed seg -> List.length buffer = 128%nat ->
  let frame := Byte.x21 :: Byte.x47 :: seg.2 in
  main_iteration buffer (framed seg ++ rest)
  = Iterated (frame_commands frame) (frame ++ drop 15 buffer) rest.
Proof.
  intros [Hnoise Hbody] Hbuf frame. destruct seg as [noise body].
  simpl in *. unfold framed. simpl fst. simpl snd.
  rewrite <- app_assoc, main_iteration_skip_noise by assumption.
  destruct (main_iteration_ignores_validation body rest buffer Hbody Hbuf)
    as (x & y & z & Ex & Ey & Ez & Hmain).
  simpl app. simpl app in Hmain. rewrite Hmain.
  unfold frame_commands. subst frame. rewrite Ex, Ey, Ez. reflexivity.
Qed.

Lemma main_iteration_waiting (noise buffer : list byte) :
  Forall (fun c => c <> Byte.x21) noise ->
  main_iteration buffer noise = Waiting.
Proof.
  intros Hnoise. rewrite <- (app_nil_r noise).
  rewrite main_iteration_skip_noise by assumption. reflexivity.
Qed.

Lemma main_loop_framed (segs : list (list byte * list byte))
    (tail buffer : list byte) (turns : nat) :
  Forall is_framed segs ->
  Forall (fun c => c <> Byte.x21) tail ->
  List.length buffer = 128%nat ->
  (List.length segs < turns)%nat ->
  main_loop turns buffer (concat (map framed segs) ++ tail)
  = (concat (map (fun seg => frame_commands (Byte.x21 :: Byte.x47 :: seg.2))
               segs),
     Still_waiting).
Proof.
  intros Hsegs Htail. revert buffer turns.
  induction Hsegs as [|seg segs Hseg _ IH]; intros buffer turns Hbuf Hturns.
  - destruct turns as [|turns]; [simpl in Hturns; lia|].
    simpl. rewrite main_iteration_waiting by assumption. reflexivity.
  - destruct turns as [|turns]; [simpl in Hturns; lia|].
    simpl concat. rewrite <- app_assoc. simpl main_loop.
    rewrite main_iteration_framed by assumption.
    rewrite IH.
    + reflexivity.
    + destruct Hseg as [_ Hbody].
      rewrite length_app, length_drop. simpl. lia.
    + simpl in Hturns. lia.
Qed.

(** X17. [main] over a stream of frames. Every block of a marker and 13 more
    bytes that follows bytes other than 0x21 is decoded and mapped in its
    turn of the loop, whether or not its checksum is right; the motor
    calls are made in the order of the frames, and after the last frame
    [main] waits for the next byte. *)
Theorem main_loop_frames (segs : list (list byte * list byte))
    (tail buffer : list byte) (turns : nat) :
  Forall is_framed segs ->
  Forall (fun c => c <> Byte.x21) tail ->
  List.length buffer = 128%nat ->
  (List.length segs < turns)%nat ->
  main_loop turns buffer (concat (map framed segs) ++ tail)
  = (concat (map (fun seg => frame_commands (Byte.x21 :: Byte.x47 :: seg.2))
               segs),
     Still_waiting).
Proof. exact (main_loop_framed segs tail buffer turns). Qed.

Lemma main_loop_frames_witness :
  main_loop 3 initial_buffer
    (concat (map framed [([], drop 2 frame_corrupt);
                         ([Byte.x00], drop 2 frame_forward)])
     ++ [Byte.x0a])
  = (concat (map (fun seg => frame_commands (Byte.x21 :: Byte.x47 :: seg.2))
               [([], drop 2 frame_corrupt);
                ([Byte.x00], drop 2 frame_forward)]),
     Still_waiting).
Proof.
  apply (main_loop_frames [([], drop 2 frame_corrupt);
                           ([Byte.x00], drop 2 frame_forward)]
           [Byte.x0a] initial_buffer 3).
  - repeat constructor; discriminate.
  - repeat constructor; discriminate.
  - reflexivity.
  - simpl. lia.
Defined.

Lemma frame_of_commands (x y z : float32) :
  is_binary32 x = true -> is_binary32 y = true -> is_binary32 z = true ->
  frame_commands (frame_of x y z) = MotorControlFromGyro x y z.
Proof.
  intros Hx Hy Hz.
  destruct (frame_of_extract x y z [] Hx Hy Hz) as (Ex & Ey & Ez).
  rewrite app_nil_r in Ex, Ey, Ez.
  unfold frame_commands. rewrite Ex, Ey, Ez. reflexivity.
Qed.

(** X18. From samples to motor calls. When the frames of a sequence of
    samples are sent one after the other, [main] makes for each sample,
    in order, exactly the motor calls of [MotorControlFromGyro] on that
    sample. *)
Theorem main_loop_samples (samples : list (float32 * float32 * float32))
    (buffer : list byte) (turns : nat) :
  Forall (fun s => is_binary32 s.1.1 = true /\ is_binary32 s.1.2 = true
                   /\ is_binary32 s.2 = true) samples ->
  List.length buffer = 128%nat ->
  (List.length samples < turns)%nat ->
  main_loop turns buffer
    (concat (map (fun s => frame_of s.1.1 s.1.2 s.2) samples))
  = (concat (map (fun s => MotorControlFromGyro s.1.1 s.1.2 s.2) samples),
     Still_waiting).
Proof.
  intros Hs Hbuf Hturns.
  set (seg := fun s : float32 * float32 * float32 =>
                (@nil byte, drop 2 (frame_of s.1.1 s.1.2 s.2))).
  replace (concat (map (fun s => frame_of s.1.1 s.1.2 s.2) samples))
    with (concat (map framed (map seg samples)) ++ []).
  2: { rewrite app_nil_r, map_map. reflexivity. }
  rewrite main_loop_framed;
    [|apply Forall_map, Forall_forall; intros s _; split;
        [constructor | reflexivity]
     |constructor|assumption|rewrite length_map; assumption].
  f_equal. rewrite map_map. f_equal. clear Hturns.
  induction Hs as [|[[x y] z] samples (Hx & Hy & Hz) _ IH];
    [reflexivity|].
  simpl in *. rewrite IH. f_equal.
  exact (frame_of_commands x y z Hx Hy Hz).
Qed.

Lemma main_loop_samples_witness :
  main_loop 3 initial_buffer
    (concat (map (fun s => frame_of s.1.1 s.1.2 s.2)
               [(f_zero, f_half, f_zero); (f_half, f_nan, f_zero)]))
  = (concat (map (fun s => MotorControlFromGyro s.1.1 s.1.2 s.2)
               [(f_zero, f_half, f_zero); (f_half, f_nan, f_zero)]),
     Still_waiting).
Proof.
  apply (main_loop_samples [(f_zero, f_half, f_zero); (f_half, f_nan, f_zero)]
           initial_buffer 3).
  - repeat constructor.
  - reflexivity.
  - simpl. lia.
Defined.

End Loop.

(** ** Transmission *)

Section Transmit.

Lemma u8_zero (c : byte) : (u8 c =? 0) = true <-> c = Byte.x00.
Proof. exact (u8_eqb_marker c Byte.x00). Qed.

(** X19. [BLE_UART_OutString] sends the bytes in front of the first zero byte
    and nothing else: it never sends a zero byte and nothing behind the
    terminator; without a zero byte in the array it reads beyond its
    end. *)
Theorem OutString_sends (pt tx tx' : list byte) :
  (BLE_UART_OutString pt tx = Some tx' <->
   exists s rest,
     pt = s ++ Byte.x00 :: rest
     /\ Forall (fun c => c <> Byte.x00) s
     /\ tx' = tx ++ s)
  /\ (BLE_UART_OutString pt tx = None <->
      Forall (fun c => c <> Byte.x00) pt).
Proof.
  revert tx tx'. induction pt as [|c pt IH]; intros tx tx'.
  - simpl. split; split; try discriminate; try constructor.
    intros (s & rest & E & _). destruct s; discriminate.
  - simpl BLE_UART_OutString. unfold BLE_UART_OutChar.
    destruct (u8 c =? 0) eqn:E; simpl negb; cbv iota.
    + apply u8_zero in E. subst c. split; split.
      * intros [= <-]. exists [], pt. rewrite app_nil_r. auto.
      * intros (s & rest & Hpt & Hs & ->). destruct s as [|a s].
        -- rewrite app_nil_r. reflexivity.
        -- injection Hpt as <- _. apply Forall_cons_1 in Hs as [Hs _].
           contradiction.
      * discriminate.
      * intros H. apply Forall_cons_1 in H as [H _]. contradiction.
    + assert (Hc : c <> Byte.x00).
      { intros ->. rewrite (proj2 (u8_zero Byte.x00) eq_refl) in E.
        discriminate. }
      destruct (IH (tx ++ [c]) tx') as [IH1 IH2]. split; split.
      * intros H. apply IH1 in H as (s & rest & -> & Hs & ->).
        exists (c :: s), rest. rewrite <- app_assoc. auto.
      * intros (s & rest & Hpt & Hs & ->). apply IH1.
        destruct s as [|a s]; [injection Hpt as -> _; contradiction|].
        injection Hpt as <- ->. apply Forall_cons_1 in Hs as [_ Hs].
        exists s, rest. rewrite <- app_assoc. auto.
      * intros H. constructor; [exact Hc | apply IH2, H].
      * intros H. apply IH2. apply Forall_cons_1 in H as [_ H]. exact H.
Qed.

Lemma OutString_sends_witness :
  BLE_UART_OutString
    [Byte.x41; Byte.x54; Byte.x5a; Byte.x0d; Byte.x0a; Byte.x00; Byte.x42] []
  = Some [Byte.x41; Byte.x54; Byte.x5a; Byte.x0d; Byte.x0a]
  /\ BLE_UART_OutString [Byte.x41; Byte.x54] [] = None.
Proof.
  split.
  - apply (proj1 (OutString_sends _ [] _)).
    exists [Byte.x41; Byte.x54; Byte.x5a; Byte.x0d; Byte.x0a], [Byte.x42].
    split; [reflexivity|]. split; [|reflexivity].
    repeat constructor; discriminate.
  - apply (proj2 (OutString_sends [Byte.x41; Byte.x54] [] [])).
    repeat constructor; discriminate.
Defined.

End Transmit.

(** ** What the assembler hands over *)

Section Handover.

Lemma store_behind (buffer b part : list byte) (p : nat) (c : byte) :
  take (List.length part) (drop p buffer) = part ->
  store buffer (Z.of_nat (p + List.length part)) c = Some b ->
  take (List.length (part ++ [c])) (drop p b) = part ++ [c].
Proof.
  intros Hpart Hst.
  apply store_Some in Hst as (_ & Hin & ->).
  rewrite Nat2Z.id in *.
  rewrite length_app. simpl.
  rewrite drop_insert_ge by lia.
  replace (p + List.length part - p)%nat with (List.length part) by lia.
  replace (List.length part + 1)%nat with (S (List.length part)) by lia.
  rewrite (take_S_r _ _ c)
    by (apply list_lookup_insert_eq; rewrite length_drop; lia).
  rewrite take_insert_ge by lia. rewrite Hpart. reflexivity.
Qed.

(** Whenever the loop returns, the bytes of the frame in progress and
    the bytes it reads further split into discarded bytes, a block of a
    marker and 13 bytes, and the bytes not read; the block stands in the
    buffer as one piece. [p] is where the frame in progress starts. *)
Lemma InString_loop_collected (size : Z) (input : list byte) :
  15 <= size ->
  forall (buffer : list byte) (p : nat) (length state : Z)
         (part : list byte) (n : Z) (buffer' rest : list byte),
    assembling state length part ->
    take (List.length part) (drop p buffer) = part ->
    InString_loop size input buffer (Z.of_nat (p + List.length part))
      length state
    = Returned n buffer' rest ->
    n = 15 /\
    exists skipped frame : list byte,
      part ++ input = skipped ++ frame ++ rest
      /\ List.length frame = 15%nat
      /\ take 2 frame = [Byte.x21; Byte.x47]
      /\ exists k : nat, take 15 (drop k buffer') = frame.
Proof.
  intros Hsize.
  induction input as [|c input IH];
    intros buffer p length state part n buffer' rest Hinv Hat Hret.
  - rewrite InString_loop_nil in Hret.
    replace (length <? size) with true in Hret
      by (symmetry; apply Z.ltb_lt; destruct Hinv; lia).
    discriminate.
  - simpl InString_loop in Hret.
    replace (length <? size) with true in Hret
      by (symmetry; apply Z.ltb_lt; destruct Hinv; lia).
    destruct Hinv as [| |got Hgot]; simpl in Hret.
    + destruct (u8 c =? 33) eqn:E.
      * apply (u8_eqb_marker c Byte.x21) in E. subst c.
        rewrite Nat.add_0_r in Hret.
        destruct (store buffer (Z.of_nat p) Byte.x21) as [b|] eqn:Hst;
          [|discriminate].
        assert (Hat' : take 1 (drop p b) = [Byte.x21]).
        { apply (store_behind buffer b [] p); [reflexivity|].
          simpl. rewrite Nat.add_0_r. exact Hst. }
        replace (Z.of_nat p + 1) with (Z.of_nat (p + 1)) in Hret by lia.
        exact (IH _ _ _ _ [Byte.x21] _ _ _ assembling_matched Hat' Hret).
      * rewrite Z.sub_0_r in Hret.
        destruct (IH _ _ _ _ [] _ _ _ assembling_idle (take_0 _) Hret)
          as (-> & skipped & frame & Hsplit & Hrest).
        split; [reflexivity|]. exists (c :: skipped), frame.
        simpl in *. rewrite Hsplit. auto.
    + destruct (u8 c =? 71) eqn:E.
      * apply (u8_eqb_marker c Byte.x47) in E. subst c.
        destruct (store buffer (Z.of_nat (p + 1)) Byte.x47) as [b|] eqn:Hst;
          [|discriminate].
        assert (Hat' : take 2 (drop p b) = [Byte.x21; Byte.x47])
          by exact (store_behind buffer b [Byte.x21] p _ Hat Hst).
        assert (A : assembling 2 (1 + 1) [Byte.x21; Byte.x47])
          by (apply (assembling_collecting []); simpl; lia).
        replace (Z.of_nat (p + 1) + 1) with (Z.of_nat (p + 2)) in Hret by lia.
        exact (IH _ _ _ _ [Byte.x21; Byte.x47] _ _ _ A Hat' Hret).
      * rewrite Z.sub_0_r in Hret.
        replace (Z.of_nat (p + 1)) with (Z.of_nat (p + 1 + 0)) in Hret
          by (f_equal; lia).
        destruct (IH _ (p + 1)%nat _ _ [] _ _ _ assembling_idle (take_0 _) Hret)
          as (-> & skipped & frame & Hsplit & Hrest).
        split; [reflexivity|]. exists (Byte.x21 :: c :: skipped), frame.
        simpl in *. rewrite Hsplit. auto.
    + set (part := Byte.x21 :: Byte.x47 :: got) in *.
      change (S (S (List.length got))) with (List.length part) in Hret.
      destruct (store buffer (Z.of_nat (p + List.length part)) c)
        as [b|] eqn:Hst; [|discriminate].
      pose proof (store_behind _ _ _ _ _ Hat Hst) as Hat'.
      destruct (Z.eqb_spec (2 + Z.of_nat (List.length got) + 1) 15) as [E|E].
      * injection Hret as <- <- <-. split; [exact E|].
        exists [], (part ++ [c]).
        assert (L : List.length (part ++ [c]) = 15%nat)
          by (rewrite length_app; subst part; simpl; lia).
        split; [rewrite <- app_assoc; reflexivity|].
        split; [exact L|]. split; [reflexivity|].
        exists p. rewrite <- L. exact Hat'.
      * assert (A : assembling 2 (2 + Z.of_nat (List.length (got ++ [c])))
                      (Byte.x21 :: Byte.x47 :: got ++ [c]))
          by (apply assembling_collecting; rewrite length_app; simpl; lia).
        replace (2 + Z.of_nat (List.length got) + 1)
          with (2 + Z.of_nat (List.length (got ++ [c]))) in Hret
          by (rewrite length_app; simpl; lia).
        replace (Z.of_nat (p + List.length part) + 1)
          with (Z.of_nat (p + List.length (part ++ [c]))) in Hret
          by (rewrite length_app; simpl; lia).
        destruct (IH _ _ _ _ (part ++ [c]) _ _ _ A Hat' Hret)
          as (-> & skipped & frame & Hsplit & Hrest).
        split; [reflexivity|]. exists skipped, frame.
        split; [|exact Hrest].
        rewrite <- Hsplit. rewrite <- app_assoc. reflexivity.
Qed.

Lemma marked_block (frame : list byte) :
  List.length frame = 15%nat ->
  take 2 frame = [Byte.x21; Byte.x47] ->
  exists body : list byte,
    frame = Byte.x21 :: Byte.x47 :: body /\ List.length body = 13%nat.
Proof.
  intros Hlen Hmark.
  destruct frame as [|a [|b body]]; simpl in Hlen; try lia.
  simpl in Hmark. injection Hmark as -> ->.
  exists body. split; [reflexivity | lia].
Qed.

(** C5, as the code has it. With a capacity of at least 15, whenever the
    call returns the length is 15, never fewer and never more; the last
    15 bytes read are a marker 0x21 0x47 and the 13 bytes after it; these
    15 bytes stand in the buffer as one piece, and they are its first 15
    bytes when no byte 0x21 was read in front of them. For every stream
    in which such a block comes behind bytes none of which is 0x21, the
    call does return, when the last byte of the block has been read, and
    the block is the first 15 bytes of the buffer. *)
Theorem InString_returns_after_frame
    (buffer input noise body rest : list byte) (buffer_size : Z) :
  15 <= buffer_size ->
  Z.of_nat (List.length buffer) = buffer_size ->
  (forall (n : Z) (buffer' rest' : list byte),
      BLE_UART_InString buffer buffer_size input = Returned n buffer' rest' ->
      n = 15 /\
      exists skipped frame : list byte,
        input = skipped ++ frame ++ rest'
        /\ List.length frame = 15%nat
        /\ take 2 frame = [Byte.x21; Byte.x47]
        /\ (exists k : nat, take 15 (drop k buffer') = frame)
        /\ (Forall (fun c => c <> Byte.x21) skipped ->
            buffer' = frame ++ drop 15 buffer))
  /\ (Forall (fun c => c <> Byte.x21) noise ->
      List.length body = 13%nat ->
      BLE_UART_InString buffer buffer_size
        (noise ++ Byte.x21 :: Byte.x47 :: body ++ rest)
      = Returned 15 (Byte.x21 :: Byte.x47 :: body ++ drop 15 buffer) rest).
Proof.
  intros Hsize Hbuf.
  assert (Hlive : forall noise body rest,
             Forall (fun c => c <> Byte.x21) noise ->
             List.length body = 13%nat ->
             BLE_UART_InString buffer buffer_size
               (noise ++ Byte.x21 :: Byte.x47 :: body ++ rest)
             = Returned 15
                 (Byte.x21 :: Byte.x47 :: body ++ drop 15 buffer) rest).
  { intros noise0 body0 rest0 Hnoise Hbody. unfold BLE_UART_InString.
    rewrite skip_noise by (assumption || lia).
    change 0 with (Z.of_nat 0) at 1.
    rewrite collect_frame by (assumption || lia).
    reflexivity. }
  split; [|apply Hlive].
  intros n buffer' rest' Hret.
  destruct (InString_loop_collected buffer_size input Hsize buffer 0 0 0 []
              n buffer' rest' assembling_idle (take_0 _) Hret)
    as (-> & skipped & frame & Hsplit & Hlen & Hmark & Hin).
  split; [reflexivity|]. exists skipped, frame.
  simpl in Hsplit. repeat (split; [assumption|]).
  intros Hskipped.
  destruct (marked_block frame Hlen Hmark) as (body0 & -> & Hbody).
  rewrite Hsplit in Hret.
  change ((Byte.x21 :: Byte.x47 :: body0) ++ rest')
    with (Byte.x21 :: Byte.x47 :: body0 ++ rest') in Hret.
  rewrite (Hlive skipped body0 rest' Hskipped Hbody) in Hret.
  injection Hret as <-. reflexivity.
Qed.

Lemma InString_returns_after_frame_witness :
  (forall (n : Z) (buffer' rest' : list byte),
      BLE_UART_InString initial_buffer 128
        ([Byte.x00; Byte.x47] ++ frame_corrupt ++ [Byte.x0a])
      = Returned n buffer' rest' ->
      n = 15 /\
      exists skipped frame : list byte,
        [Byte.x00; Byte.x47] ++ frame_corrupt ++ [Byte.x0a]
        = skipped ++ frame ++ rest'
        /\ List.length frame = 15%nat
        /\ take 2 frame = [Byte.x21; Byte.x47]
        /\ (exists k : nat, take 15 (drop k buffer') = frame)
        /\ (Forall (fun c => c <> Byte.x21) skipped ->
            buffer' = frame ++ drop 15 initial_buffer))
  /\ BLE_UART_InString initial_buffer 128
       ([Byte.x00; Byte.x47] ++ frame_corrupt ++ [Byte.x0a])
     = Returned 15 (frame_corrupt ++ drop 15 initial_buffer) [Byte.x0a].
Proof.
  destruct (InString_returns_after_frame initial_buffer
              ([Byte.x00; Byte.x47] ++ frame_corrupt ++ [Byte.x0a])
              [Byte.x00; Byte.x47] (drop 2 frame_corrupt) [Byte.x0a] 128)
    as [Hsafe Hlive]; [lia | vm_compute; reflexivity |].
  split; [exact Hsafe|].
  apply Hlive; [repeat constructor; discriminate | reflexivity].
Defined.

(** C5 as stated fails: not every stream that holds a complete frame
    makes the call return. A byte 0x21 right in front of a valid frame
    puts the loop in state 1; the 0x21 of the frame is then not the 0x47
    that state 1 waits for, it is discarded, and the loop is back in
    state 0 behind the marker of the frame. As long as no other 0x21
    comes in, the call does not return. The three-state assembler of the
    specification loses the frame in the same way. *)
Lemma frame_behind_stray_marker :
  ValidateBLEPacket frame_forward = Some true
  /\ (forall tail : list byte,
         Forall (fun c => c <> Byte.x21) tail ->
         BLE_UART_InString initial_buffer 128
           ([Byte.x21] ++ frame_forward ++ tail)
         = Blocked)
  /\ spec_AssembleNext ([Byte.x21] ++ frame_forward ++ [Byte.x0d; Byte.x0a])
     = None
  /\ ~ (forall pre frame post : list byte,
           List.length frame = 15%nat ->
           ValidateBLEPacket frame = Some true ->
           exists (buffer' rest : list byte),
             BLE_UART_InString initial_buffer 128 (pre ++ frame ++ post)
             = Returned 15 buffer' rest).
Proof.
  split; [vm_compute; reflexivity|].
  split; [|split; [vm_compute; reflexivity|]].
  - intros tail Htail. unfold BLE_UART_InString.
    change 0 with (Z.of_nat 0) at 1.
    change ([Byte.x21] ++ frame_forward ++ tail)
      with (false_start ([], Byte.x21)
            ++ (drop 1 frame_forward ++ tail)).
    rewrite one_false_start;
      [|split; [constructor | discriminate]|reflexivity].
    rewrite decide_True by (vm_compute; lia).
    rewrite <- (app_nil_r (drop 1 frame_forward ++ tail)).
    rewrite skip_noise; [reflexivity | reflexivity |].
    apply Forall_app. split; [|exact Htail].
    repeat constructor; discriminate.
  - intros H.
    destruct (H [Byte.x21] frame_forward [] eq_refl)
      as (buffer' & rest & E); [vm_compute; reflexivity|].
    vm_compute in E. discriminate.
Qed.

End Handover.
